(** * Boomer: card-list generator (src/fetch_cards.py)

    A shallow embedding of the card fetchers, the EDHREC slug and
    percentage helpers, and the merger of [fetch_cards.py].

    Modelling conventions.
    - Python strings are [String.string]; the card names handled here are
      ASCII, so [str.lower] and the regex classes [\s], [\d], [a-z0-9] are
      their ASCII versions.
    - A Python [dict] record with optional keys is a Rocq record whose
      optional keys are [option]s: [None] = key absent.  The value stored
      under ["edhrec_rank"] may itself be Python [None], hence
      [option (option Z)].
    - Python floats read from decimal text are modelled by the exact
      rational value of that decimal text ([Q]).
    - Network calls are explicit inputs: the catalog (Scryfall) replies
      are the list of responses it gives, in request order; the statistics
      (EDHREC) service is a function from request URL to response.  Every
      request, sleep and print is recorded in an event trace. *)

From Stdlib Require Import String Ascii List Bool ZArith QArith Lia.
From Stdlib Require Import Sorting.Sorted Sorting.Permutation.
Import ListNotations.
Open Scope nat_scope.
Open Scope string_scope.
Open Scope list_scope.

(* ------------------------------------------------------------------ *)
(** ** Records *)

(** A classified card as produced by either fetcher
    (keys name, oracle_text, reason, optional edhrec_rank and
    inclusion_percent). *)
Record CardRecord := mkCard {
  c_name : string;
  c_oracle : string;
  c_reason : string;
  c_rank : option (option Z);
  c_incl : option Q
}.

(** A merged record (keys name, oracle_text, reasons, optional edhrec_rank
    and inclusion_percent), i.e. a value of [card_dict]. *)
Record Merged := mkMerged {
  m_name : string;
  m_oracle : string;
  m_reasons : list string;
  m_rank : option (option Z);
  m_incl : option Q
}.

(* ------------------------------------------------------------------ *)
(** ** merge_card_lists (lines 175-225) *)

Module Merge.

(** [card_dict] is an insertion-ordered Python dict whose key is the
    ["name"] of its value; it is modelled by the list of its values. *)
Definition CardDict := list Merged.

Fixpoint dict_get (name : string) (d : CardDict) : option Merged :=
  match d with
  | [] => None
  | m :: d' => if String.eqb (m_name m) name then Some m else dict_get name d'
  end.

(** [card_dict[name] = m] for a key already present: the entry is
    replaced in place. *)
Fixpoint dict_set (name : string) (m : Merged) (d : CardDict) : CardDict :=
  match d with
  | [] => []
  | m' :: d' => if String.eqb (m_name m') name then m :: d'
                else m' :: dict_set name m d'
  end.

(** [x in lst] for a list of strings. *)
Definition str_in (x : string) (l : list string) : bool :=
  existsb (String.eqb x) l.

(** [if card["reason"] not in reasons: reasons.append(card["reason"])] *)
Definition add_reason (r : string) (m : Merged) : Merged :=
  if str_in r (m_reasons m) then m
  else {| m_name := m_name m; m_oracle := m_oracle m;
          m_reasons := m_reasons m ++ [r];
          m_rank := m_rank m; m_incl := m_incl m |}.

(** [if "edhrec_rank" in card: ... = card["edhrec_rank"]] followed by
    [if "inclusion_percent" in card: ... = card["inclusion_percent"]]. *)
Definition overwrite_stats (c : CardRecord) (m : Merged) : Merged :=
  {| m_name := m_name m; m_oracle := m_oracle m; m_reasons := m_reasons m;
     m_rank := match c_rank c with Some v => Some v | None => m_rank m end;
     m_incl := match c_incl c with Some v => Some v | None => m_incl m end |}.

(** The fresh value [{"name": name, "oracle_text": ..., "reasons": [reason]}]. *)
Definition new_entry (c : CardRecord) : Merged :=
  {| m_name := c_name c; m_oracle := c_oracle c; m_reasons := [c_reason c];
     m_rank := None; m_incl := None |}.

(** Body of the first loop (lines 183-193), over [commander_only]. *)
Definition step_first (d : CardDict) (c : CardRecord) : CardDict :=
  match dict_get (c_name c) d with
  | None => d ++ [new_entry c]
  | Some m => dict_set (c_name c) (add_reason (c_reason c) m) d
  end.

(** Body of the second loop (lines 195-213), over [high_inclusion]. *)
Definition step_second (d : CardDict) (c : CardRecord) : CardDict :=
  match dict_get (c_name c) d with
  | None => d ++ [overwrite_stats c (new_entry c)]
  | Some m => dict_set (c_name c) (overwrite_stats c (add_reason (c_reason c) m)) d
  end.

(** [merged_cards.sort(key=lambda x: x["name"])]: a stable sort on the
    name (Python compares strings code point by code point, as
    [String.compare] does on ASCII), written as insertion sort from the
    back: an element goes before every later element whose name is not
    smaller, which keeps equal keys in their original order. *)
Fixpoint insert_by_name (m : Merged) (l : list Merged) : list Merged :=
  match l with
  | [] => [m]
  | x :: l' => if String.ltb (m_name x) (m_name m) then x :: insert_by_name m l'
               else m :: x :: l'
  end.

Fixpoint sort_by_name (l : list Merged) : list Merged :=
  match l with
  | [] => []
  | x :: l' => insert_by_name x (sort_by_name l')
  end.

Definition merge_card_lists (commander_only high_inclusion : list CardRecord)
  : list Merged :=
  let d1 := fold_left step_first commander_only [] in
  let d2 := fold_left step_second high_inclusion d1 in
  sort_by_name d2.

End Merge.

(** Reference descriptions of the merged records, stated per name over
    the input records (used to characterise [merge_card_lists]). *)
Module MergeSpec.
Import Merge.

(** The input records bearing name [n], in scan order. *)
Definition named (n : string) (l : list CardRecord) : list CardRecord :=
  filter (fun c => String.eqb (c_name c) n) l.

(** Keep the first occurrence of each string, starting from [acc]. *)
Definition dedup_from (acc : list string) (l : list string) : list string :=
  fold_left (fun acc r => if str_in r acc then acc else acc ++ [r]) l acc.

(** The last value actually supplied (a present key), if any. *)
Definition last_given {X : Type} (l : list (option X)) : option X :=
  fold_left (fun acc o => match o with Some v => Some v | None => acc end) l None.

(** What the merged entry for [n] should be after scanning [pre] in the
    first loop and [post] in the second loop. *)
Definition expected (n : string) (pre post : list CardRecord) : option Merged :=
  match named n (pre ++ post) with
  | [] => None
  | c :: _ =>
      Some {| m_name := c_name c; m_oracle := c_oracle c;
              m_reasons := dedup_from [] (map c_reason (named n (pre ++ post)));
              m_rank := last_given (map c_rank (named n post));
              m_incl := last_given (map c_incl (named n post)) |}
  end.

(** The reasons list stored under [n] in a merged output ([] if absent). *)
Definition reasons_of (n : string) (out : list Merged) : list string :=
  match dict_get n out with Some m => m_reasons m | None => [] end.

End MergeSpec.

(* ------------------------------------------------------------------ *)
(** ** sanitize_card_name (lines 59-68) *)

Module Slug.

Definition is_upper (c : ascii) : bool :=
  let n := nat_of_ascii c in (Nat.leb 65 n) && (Nat.leb n 90).

(** [str.lower] on an ASCII character. *)
Definition lower_char (c : ascii) : ascii :=
  if is_upper c then ascii_of_nat (nat_of_ascii c + 32) else c.

Definition is_lower (c : ascii) : bool :=
  let n := nat_of_ascii c in (Nat.leb 97 n) && (Nat.leb n 122).

Definition is_digit (c : ascii) : bool :=
  let n := nat_of_ascii c in (Nat.leb 48 n) && (Nat.leb n 57).

(** [\s] of a [str] pattern on ASCII: tab, LF, VT, FF, CR, the
    separators 0x1C-0x1F, and space. *)
Definition is_space (c : ascii) : bool :=
  let n := nat_of_ascii c in ((Nat.leb 9 n) && (Nat.leb n 13)) || ((Nat.leb 28 n) && (Nat.leb n 32)).

Definition is_hyphen (c : ascii) : bool := Ascii.eqb c "-".

(** The characters of the class [[a-z0-9\s-]]. *)
Definition kept (c : ascii) : bool :=
  is_lower c || is_digit c || is_space c || is_hyphen c.

(** [re.sub(r'X+', '-', s)] where [p] decides [X]: each maximal run of
    [X] characters becomes one hyphen.  [in_run] says whether the
    previous character belonged to a run. *)
Fixpoint collapse_runs (p : ascii -> bool) (in_run : bool) (l : list ascii) : list ascii :=
  match l with
  | [] => []
  | c :: t =>
      if p c then (if in_run then collapse_runs p true t else "-"%char :: collapse_runs p true t)
      else c :: collapse_runs p false t
  end.

Fixpoint lstrip_hyphen (l : list ascii) : list ascii :=
  match l with
  | [] => []
  | c :: t => if is_hyphen c then lstrip_hyphen t else l
  end.

Fixpoint rstrip_hyphen (l : list ascii) : list ascii :=
  match l with
  | [] => []
  | c :: t =>
      match rstrip_hyphen t with
      | [] => if is_hyphen c then [] else [c]
      | t' => c :: t'
      end
  end.

(** [s.strip('-')] *)
Definition strip_hyphen (l : list ascii) : list ascii := rstrip_hyphen (lstrip_hyphen l).

Definition sanitize_chars (l : list ascii) : list ascii :=
  let s1 := map lower_char l in
  let s2 := filter kept s1 in
  let s3 := collapse_runs is_space false s2 in
  let s4 := collapse_runs is_hyphen false s3 in
  strip_hyphen s4.

Definition sanitize_card_name (name : string) : string :=
  string_of_list_ascii (sanitize_chars (list_ascii_of_string name)).

End Slug.

(** Shape predicates on slugs. *)
Module SlugSpec.
Import Slug.

(** No two adjacent hyphens. *)
Fixpoint no_double_hyphen (l : list ascii) : bool :=
  match l with
  | [] => true
  | a :: t =>
      match t with b :: _ => negb (is_hyphen a && is_hyphen b) | [] => true end
      && no_double_hyphen t
  end.

(** The first character, if any, is not a hyphen. *)
Definition head_ok (l : list ascii) : bool :=
  match l with [] => true | a :: _ => negb (is_hyphen a) end.

(** The last character, if any, is not a hyphen. *)
Definition last_ok (l : list ascii) : bool := head_ok (rev l).

(** Lowercase letter, digit or hyphen. *)
Definition slug_char (c : ascii) : bool := is_lower c || is_digit c || is_hyphen c.

End SlugSpec.

(* ------------------------------------------------------------------ *)
(** ** Percentage extraction (lines 86-91) *)

Module Percent.
Import Slug.

Fixpoint span_digits (l : list ascii) : list ascii * list ascii :=
  match l with
  | c :: t => if is_digit c then let (d, r) := span_digits t in (c :: d, r) else ([], l)
  | [] => ([], [])
  end.

(** A match of the pattern [\d+], [\.?], [\d*], then [%] (its first
    three parts forming group 1) starting at the head of [l], returning
    group 1.  Greedy reading is exact here: giving back a digit or the
    dot never lets [%] match at a different place. *)
Definition match_at (l : list ascii) : option (list ascii) :=
  let (d1, r1) := span_digits l in
  match d1, r1 with
  | [], _ => None
  | _, [] => None
  | _, c :: r2 =>
      if Ascii.eqb c "%" then Some d1
      else if Ascii.eqb c "." then
        let (d2, r3) := span_digits r2 in
        match r3 with
        | c' :: _ => if Ascii.eqb c' "%" then Some (d1 ++ "."%char :: d2) else None
        | [] => None
        end
      else None
  end.

(** [re.search]: the leftmost starting position with a match. *)
Fixpoint re_search_percent (l : list ascii) : option (list ascii) :=
  match match_at l with
  | Some g => Some g
  | None => match l with [] => None | _ :: t => re_search_percent t end
  end.

Definition digits_value (l : list ascii) : Z :=
  fold_left (fun acc c => acc * 10 + Z.of_nat (nat_of_ascii c - 48))%Z l 0%Z.

(** [float(g)] for a group [digits[.digits]], as the exact decimal value. *)
Definition decimal_value (g : list ascii) : Q :=
  let ip := fst (span_digits g) in
  let fp := match snd (span_digits g) with _ :: t => t | [] => [] end in
  Qmake (digits_value (ip ++ fp)) (Z.to_pos (10 ^ Z.of_nat (length fp))).

Definition percent_of_label (label : string) : option Q :=
  option_map decimal_value (re_search_percent (list_ascii_of_string label)).

End Percent.

(* ------------------------------------------------------------------ *)
(** ** The fetchers (lines 12-57 and 70-173) *)

Module Fetch.
Import Slug Percent.

Definition SCRYFALL_API : string := "https://api.scryfall.com".
Definition EDHREC_JSON_API : string := "https://json.edhrec.com/pages/cards".
Definition SEARCH_URL : string := SCRYFALL_API ++ "/cards/search".

(** What the program prints. *)
Inductive Msg :=
| MsgFetchingCommanderOnly
| MsgFetchingPage (page : nat)
| MsgError (status : Z) (text : string)
| MsgFoundCommanderOnly (count : nat)
| MsgWarning (card_name : string) (error : string)
| MsgFetchingHighInclusion (threshold : Q)
| MsgUsingEdhrecData
| MsgFetchingScryfallPage (page : nat)
| MsgChecked (checked found : nat)
| MsgReachedThreshold (card_name : string) (pct threshold : Q)
| MsgStoppingAfter (checked : nat)
| MsgFoundHighInclusion (count : nat).

(** Observable effects: prints, catalog requests (with the query
    parameters only on page 1), statistics requests and sleeps. *)
Inductive Event :=
| EvPrint (m : Msg)
| EvCatalogGet (url : string) (with_params : bool)
| EvEdhrecGet (url : string)
| EvSleep.

(** A card object of a catalog reply ([card.get("oracle_text", "")] is
    already applied; [edhrec_rank] may be [None]). *)
Record ScryCard := mkScry {
  sc_name : string;
  sc_oracle : string;
  sc_rank : option Z
}.

(** A catalog reply: status code, body text, and the decoded
    [data] / [has_more] / [next_page] fields. *)
Record Response := mkResponse {
  status : Z;
  text : string;
  data : list ScryCard;
  has_more : bool;
  next_page : option string
}.

(** A statistics reply: an exception raised while fetching or decoding,
    or a status code and the extracted label (["" ] when a key is missing). *)
Inductive EdhrecResponse :=
| EdhRaise (error : string)
| EdhResponse (status : Z) (label : string).

Definition edhrec_url (card_name : string) : string :=
  EDHREC_JSON_API ++ "/" ++ sanitize_card_name card_name ++ ".json".

Definition to_commander_only (c : ScryCard) : CardRecord :=
  mkCard (sc_name c) (sc_oracle c) "commander_only" None None.

(** The pagination loop of [fetch_commander_only_cards]; [resps] are the
    catalog replies still to come.  [None]: the replies ran out. *)
Fixpoint co_pages (resps : list Response) (url : option string) (page : nat)
    (cards : list CardRecord) (tr : list Event)
    : option (list CardRecord * list Event) :=
  match url with
  | None => Some (cards, tr)
  | Some u =>
      if String.eqb u "" then Some (cards, tr) else
      match resps with
      | [] => None
      | r :: rest =>
          let tr1 := tr ++ [EvPrint (MsgFetchingPage page); EvCatalogGet u (Nat.eqb page 1)] in
          if negb (Z.eqb (status r) 200) then
            Some (cards, tr1 ++ [EvPrint (MsgError (status r) (text r))])
          else
            let cards' := cards ++ map to_commander_only (data r) in
            if has_more r then co_pages rest (next_page r) (S page) cards' (tr1 ++ [EvSleep])
            else Some (cards', tr1)
      end
  end.

Definition fetch_commander_only_cards (resps : list Response)
    : option (list CardRecord * list Event) :=
  match co_pages resps (Some SEARCH_URL) 1 [] [EvPrint MsgFetchingCommanderOnly] with
  | Some (cards, tr) => Some (cards, tr ++ [EvPrint (MsgFoundCommanderOnly (length cards))])
  | None => None
  end.

Record ScanState := mkScan {
  ss_cards : list CardRecord;
  ss_checked : nat;
  ss_stopped : bool;
  ss_trace : list Event
}.

Section WithServices.

(** The statistics service, by request URL. *)
Variable edhrec_service : string -> EdhrecResponse.
(** [f"{x:.2f}"] *)
Variable format_2f : Q -> string.

Definition get_edhrec_inclusion (card_name : string) : option Q * list Event :=
  let url := edhrec_url card_name in
  match edhrec_service url with
  | EdhRaise e => (None, [EvEdhrecGet url; EvPrint (MsgWarning card_name e)])
  | EdhResponse st label =>
      if Z.eqb st 200 then (percent_of_label label, [EvEdhrecGet url])
      else (None, [EvEdhrecGet url])
  end.

Definition to_high_inclusion (c : ScryCard) (p : Q) : CardRecord :=
  mkCard (sc_name c) (sc_oracle c) ("high_inclusion: " ++ format_2f p ++ "%")
         (Some (sc_rank c)) (Some p).

(** The inner loop over one page (lines 132-163); [ss_stopped] is set by
    the [break] that also clears [url]. *)
Fixpoint hi_cards (threshold : Q) (cs : list ScryCard) (checked : nat)
    (cards : list CardRecord) (tr : list Event) : ScanState :=
  match cs with
  | [] => mkScan cards checked false tr
  | c :: rest =>
      let checked' := S checked in
      let tr1 := if Nat.eqb (checked' mod 25) 0
                 then tr ++ [EvPrint (MsgChecked checked' (length cards))] else tr in
      let (res, ev) := get_edhrec_inclusion (sc_name c) in
      let tr2 := tr1 ++ ev in
      match res with
      | None => hi_cards threshold rest checked' cards tr2
      | Some p =>
          if Qle_bool threshold p then
            hi_cards threshold rest checked' (cards ++ [to_high_inclusion c p]) (tr2 ++ [EvSleep])
          else
            mkScan cards checked' true
              (tr2 ++ [EvPrint (MsgReachedThreshold (sc_name c) p threshold);
                       EvPrint (MsgStoppingAfter checked')])
      end
  end.

(** The pagination loop of [fetch_high_inclusion_cards]. *)
Fixpoint hi_pages (threshold : Q) (resps : list Response) (url : option string)
    (page checked : nat) (cards : list CardRecord) (tr : list Event)
    : option (list CardRecord * list Event) :=
  match url with
  | None => Some (cards, tr)
  | Some u =>
      if String.eqb u "" then Some (cards, tr) else
      match resps with
      | [] => None
      | r :: rest =>
          let tr1 := tr ++ [EvPrint (MsgFetchingScryfallPage page);
                            EvCatalogGet u (Nat.eqb page 1)] in
          if negb (Z.eqb (status r) 200) then
            Some (cards, tr1 ++ [EvPrint (MsgError (status r) (text r))])
          else
            let s := hi_cards threshold (data r) checked cards tr1 in
            if negb (ss_stopped s) && has_more r then
              hi_pages threshold rest (next_page r) (S page) (ss_checked s) (ss_cards s)
                       (ss_trace s ++ [EvSleep])
            else Some (ss_cards s, ss_trace s)
      end
  end.

Definition fetch_high_inclusion_cards (threshold : Q) (resps : list Response)
    : option (list CardRecord * list Event) :=
  match hi_pages threshold resps (Some SEARCH_URL) 1 0 []
          [EvPrint (MsgFetchingHighInclusion threshold); EvPrint MsgUsingEdhrecData] with
  | Some (cards, tr) => Some (cards, tr ++ [EvPrint (MsgFoundHighInclusion (length cards))])
  | None => None
  end.

End WithServices.

(** The statistics requests of a trace, in order. *)
Definition edhrec_requests (tr : list Event) : list string :=
  flat_map (fun e => match e with EvEdhrecGet u => [u] | _ => [] end) tr.

(** The catalog requests of a trace, in order. *)
Definition catalog_requests (tr : list Event) : list string :=
  flat_map (fun e => match e with EvCatalogGet u _ => [u] | _ => [] end) tr.

End Fetch.

(** Reference descriptions of fetch results. *)
Module FetchSpec.
Import Fetch.

(** The [next_page] URLs announced by a sequence of pages. *)
Definition next_urls (rs : list Response) : list string :=
  flat_map (fun r => match next_page r with Some v => [v] | None => [] end) rs.

(** A successful page that announces a (non-empty) next page. *)
Definition continues (r : Response) : Prop :=
  status r = 200%Z /\ has_more r = true /\ exists u, next_page r = Some u /\ u <> "".

(** A successful page after which [while url] ends: no more pages, or no
    usable [next_page]. *)
Definition last_page (r : Response) : Prop :=
  status r = 200%Z /\ (has_more r = false \/ next_page r = None \/ next_page r = Some "").

Section WithServices.
Variable edhrec_service : string -> EdhrecResponse.
Variable format_2f : Q -> string.

(** A card that does not stop the scan: no percentage, or one at least
    the threshold. *)
Definition passes (threshold : Q) (c : ScryCard) : bool :=
  match fst (get_edhrec_inclusion edhrec_service (sc_name c)) with
  | Some p => Qle_bool threshold p
  | None => true
  end.

(** The records the scan emits for cards that pass. *)
Definition emitted (cs : list ScryCard) : list CardRecord :=
  flat_map (fun c => match fst (get_edhrec_inclusion edhrec_service (sc_name c)) with
                     | Some p => [to_high_inclusion format_2f c p]
                     | None => []
                     end) cs.

(** A record the high-inclusion scan can emit: built from a catalog card
    whose looked-up percentage is at least the threshold. *)
Definition hi_record (threshold : Q) (r : CardRecord) : Prop :=
  exists c p, r = to_high_inclusion format_2f c p /\
              fst (get_edhrec_inclusion edhrec_service (sc_name c)) = Some p /\
              Qle threshold p.

End WithServices.

Definition card_urls (cs : list ScryCard) : list string :=
  map (fun c => edhrec_url (sc_name c)) cs.

End FetchSpec.

(* ------------------------------------------------------------------ *)
(** ** main (lines 227-242) *)

Module Main.
Import Fetch.

(** The list [main] hands to [json.dump] (the file write and the prints
    are not modelled).  The two fetches share one stream of catalog
    replies; [co_resps] are the replies the first fetch consumes and
    [hi_resps] those that follow.  The threshold is [3.5]. *)
Definition main_output (edhrec_service : string -> EdhrecResponse) (format_2f : Q -> string)
    (co_resps hi_resps : list Response) : option (list Merged) :=
  match fetch_commander_only_cards co_resps with
  | None => None
  | Some (commander_only, _) =>
      match fetch_high_inclusion_cards edhrec_service format_2f (35 # 10) hi_resps with
      | None => None
      | Some (high_inclusion, _) => Some (Merge.merge_card_lists commander_only high_inclusion)
      end
  end.

End Main.

(* ------------------------------------------------------------------ *)
(** ** Sample replies, used to instantiate the statements below *)

Module Samples.
Import Fetch.

Definition card_a : ScryCard := mkScry "Sol Ring" "Add {C}{C}." (Some 1%Z).
Definition card_b : ScryCard := mkScry "Arcane Signet" "Add one mana." (Some 2%Z).
Definition card_c : ScryCard := mkScry "Rare Card" "Draw a card." (Some 900%Z).

(** The statistics service: the rare card is in 1.25% of decks, the
    signet's request fails, every other card is in 55.5% of decks. *)
Definition sample_svc (url : string) : EdhrecResponse :=
  if String.eqb url (edhrec_url "Rare Card") then
    EdhResponse 200 "In 5 decks 1.25% of 400 decks"
  else if String.eqb url (edhrec_url "Arcane Signet") then EdhRaise "timed out"
  else EdhResponse 200 "In 8880 decks 55.5% of 16000 decks".

Definition sample_fmt (q : Q) : string := "q".

Definition page1 : Response :=
  mkResponse 200 "" [card_a; card_b] true (Some (String.append SEARCH_URL "?page=2")).
Definition page2 : Response :=
  mkResponse 200 "" [card_a; card_c; card_b] false None.
(** A last page that says [has_more] but gives no next URL. *)
Definition page2_open : Response :=
  mkResponse 200 "" [card_b; card_a] true None.
Definition page_error : Response :=
  mkResponse 429 "Too Many Requests" [] false None.

End Samples.

(* ================================================================== *)
(** * Proofs *)

Module MergeFacts.
Import Merge MergeSpec.

Lemma dict_get_name n d m : dict_get n d = Some m -> m_name m = n.
Proof.
  induction d as [|x d IH]; simpl; [discriminate|].
  destruct (String.eqb_spec (m_name x) n); [intros [= <-]; assumption | exact IH].
Qed.

Lemma dict_get_app_one n d m :
  dict_get n (d ++ [m]) =
  match dict_get n d with
  | Some x => Some x
  | None => if String.eqb (m_name m) n then Some m else None
  end.
Proof.
  induction d as [|x d IH]; simpl; [reflexivity|].
  destruct (String.eqb (m_name x) n); [reflexivity | exact IH].
Qed.

Lemma dict_get_set n k m d :
  m_name m = k ->
  dict_get n (dict_set k m d) =
  if String.eqb k n then
    match dict_get k d with Some _ => Some m | None => None end
  else dict_get n d.
Proof.
  intros Hm. induction d as [|x d IH]; simpl.
  - destruct (String.eqb k n); reflexivity.
  - destruct (String.eqb_spec (m_name x) k) as [Hx|Hx]; simpl.
    + rewrite Hm, Hx. destruct (String.eqb k n); reflexivity.
    + rewrite IH. destruct (String.eqb_spec k n) as [<-|Hkn].
      * apply String.eqb_neq in Hx. now rewrite Hx.
      * reflexivity.
Qed.

Lemma add_reason_name r m : m_name (add_reason r m) = m_name m.
Proof. unfold add_reason. now destruct (str_in r (m_reasons m)). Qed.

Lemma step_first_get d c n :
  dict_get n (step_first d c) =
  if String.eqb (c_name c) n then
    Some (match dict_get n d with
          | None => new_entry c
          | Some m => add_reason (c_reason c) m end)
  else dict_get n d.
Proof.
  unfold step_first.
  destruct (dict_get (c_name c) d) as [m|] eqn:Hg.
  - rewrite dict_get_set.
    + destruct (String.eqb_spec (c_name c) n) as [<-|]; [now rewrite Hg | reflexivity].
    + rewrite add_reason_name. now apply dict_get_name in Hg.
  - rewrite dict_get_app_one.
    destruct (String.eqb_spec (c_name c) n) as [<-|Hn]; simpl.
    + now rewrite Hg, String.eqb_refl.
    + apply String.eqb_neq in Hn. now rewrite Hn; destruct (dict_get n d).
Qed.

Lemma step_second_get d c n :
  dict_get n (step_second d c) =
  if String.eqb (c_name c) n then
    Some (match dict_get n d with
          | None => overwrite_stats c (new_entry c)
          | Some m => overwrite_stats c (add_reason (c_reason c) m) end)
  else dict_get n d.
Proof.
  unfold step_second.
  destruct (dict_get (c_name c) d) as [m|] eqn:Hg.
  - rewrite dict_get_set.
    + destruct (String.eqb_spec (c_name c) n) as [<-|]; [now rewrite Hg | reflexivity].
    + simpl. rewrite add_reason_name. now apply dict_get_name in Hg.
  - rewrite dict_get_app_one.
    destruct (String.eqb_spec (c_name c) n) as [<-|Hn]; simpl.
    + now rewrite Hg, String.eqb_refl.
    + apply String.eqb_neq in Hn. now rewrite Hn; destruct (dict_get n d).
Qed.

Lemma named_app n l1 l2 : named n (l1 ++ l2) = named n l1 ++ named n l2.
Proof. apply filter_app. Qed.

Lemma named_one n c :
  named n [c] = if String.eqb (c_name c) n then [c] else [].
Proof. reflexivity. Qed.

Lemma dedup_from_snoc acc l r :
  dedup_from acc (l ++ [r]) =
  let a := dedup_from acc l in if str_in r a then a else a ++ [r].
Proof. unfold dedup_from. now rewrite fold_left_app. Qed.

Lemma last_given_snoc {X} (l : list (option X)) o :
  last_given (l ++ [o]) = match o with Some v => Some v | None => last_given l end.
Proof. unfold last_given. now rewrite fold_left_app. Qed.

Lemma expected_first P c n :
  expected n (P ++ [c]) [] =
  if String.eqb (c_name c) n then
    Some (match expected n P [] with
          | None => new_entry c
          | Some m => add_reason (c_reason c) m end)
  else expected n P [].
Proof.
  unfold expected. rewrite !app_nil_r, named_app, named_one.
  destruct (String.eqb (c_name c) n).
  - destruct (named n P) as [|c0 rest]; simpl; [reflexivity|].
    rewrite map_app; cbn [map]; rewrite dedup_from_snoc.
    unfold add_reason; simpl.
    destruct (str_in _ _); reflexivity.
  - now rewrite app_nil_r.
Qed.

Lemma expected_second P Q c n :
  expected n P (Q ++ [c]) =
  if String.eqb (c_name c) n then
    Some (match expected n P Q with
          | None => overwrite_stats c (new_entry c)
          | Some m => overwrite_stats c (add_reason (c_reason c) m) end)
  else expected n P Q.
Proof.
  unfold expected. rewrite app_assoc, !named_app, named_one.
  destruct (String.eqb (c_name c) n).
  - rewrite <- named_app.
    destruct (named n (P ++ Q)) as [|c0 rest] eqn:HPQ; simpl.
    + rewrite named_app in HPQ. apply app_eq_nil in HPQ as [_ ->]. simpl.
      unfold overwrite_stats, new_entry, last_given; simpl.
      destruct (c_rank c), (c_incl c); reflexivity.
    + rewrite !map_app; cbn [map]; rewrite dedup_from_snoc, !last_given_snoc.
      unfold add_reason, overwrite_stats; simpl.
      destruct (str_in _ _); reflexivity.
  - now rewrite !app_nil_r, <- named_app.
Qed.

Lemma first_loop A : forall d P,
  (forall n, dict_get n d = expected n P []) ->
  forall n, dict_get n (fold_left step_first A d) = expected n (P ++ A) [].
Proof.
  induction A as [|c A IH]; simpl; intros d P H n.
  - now rewrite app_nil_r.
  - replace (P ++ c :: A) with ((P ++ [c]) ++ A) by now rewrite <- app_assoc.
    apply IH. intros n'. now rewrite step_first_get, expected_first, H.
Qed.

Lemma second_loop B : forall d P Q,
  (forall n, dict_get n d = expected n P Q) ->
  forall n, dict_get n (fold_left step_second B d) = expected n P (Q ++ B).
Proof.
  induction B as [|c B IH]; simpl; intros d P Q H n.
  - now rewrite app_nil_r.
  - replace (Q ++ c :: B) with ((Q ++ [c]) ++ B) by now rewrite <- app_assoc.
    apply IH. intros n'. now rewrite step_second_get, expected_second, H.
Qed.

(** Names in the dict stay distinct. *)

Lemma dict_get_None n d : dict_get n d = None <-> ~ In n (map m_name d).
Proof.
  induction d as [|x d IH]; simpl; [tauto|].
  destruct (String.eqb_spec (m_name x) n); split; intros H.
  - discriminate.
  - exfalso; auto.
  - apply IH in H. intros [|]; auto.
  - apply IH. auto.
Qed.

Lemma dict_set_names k m d :
  m_name m = k -> map m_name (dict_set k m d) = map m_name d.
Proof.
  intros Hm. induction d as [|x d IH]; simpl; [reflexivity|].
  destruct (String.eqb_spec (m_name x) k); simpl; congruence.
Qed.

Lemma NoDup_snoc {X} (l : list X) x : NoDup l -> ~ In x l -> NoDup (l ++ [x]).
Proof.
  intros H1 H2. apply Permutation_NoDup with (x :: l).
  - apply Permutation_cons_append.
  - now constructor.
Qed.

Lemma step_first_nodup d c :
  NoDup (map m_name d) -> NoDup (map m_name (step_first d c)).
Proof.
  intros H. unfold step_first.
  destruct (dict_get (c_name c) d) as [m|] eqn:Hg.
  - rewrite dict_set_names; [assumption|].
    rewrite add_reason_name. now apply dict_get_name in Hg.
  - rewrite map_app. apply NoDup_snoc; [assumption|].
    now apply dict_get_None.
Qed.

Lemma step_second_nodup d c :
  NoDup (map m_name d) -> NoDup (map m_name (step_second d c)).
Proof.
  intros H. unfold step_second.
  destruct (dict_get (c_name c) d) as [m|] eqn:Hg.
  - rewrite dict_set_names; [assumption|].
    simpl. rewrite add_reason_name. now apply dict_get_name in Hg.
  - rewrite map_app. apply NoDup_snoc; [assumption|].
    now apply dict_get_None.
Qed.

Lemma fold_first_nodup A : forall d,
  NoDup (map m_name d) -> NoDup (map m_name (fold_left step_first A d)).
Proof.
  induction A as [|c A IH]; simpl; intros d H; [assumption|].
  apply IH, step_first_nodup, H.
Qed.

Lemma fold_second_nodup B : forall d,
  NoDup (map m_name d) -> NoDup (map m_name (fold_left step_second B d)).
Proof.
  induction B as [|c B IH]; simpl; intros d H; [assumption|].
  apply IH, step_second_nodup, H.
Qed.

(** The sort. *)

Lemma insert_by_name_perm m l : Permutation (insert_by_name m l) (m :: l).
Proof.
  induction l as [|x l IH]; simpl; [reflexivity|].
  destruct (String.ltb (m_name x) (m_name m)); [|reflexivity].
  rewrite IH. apply perm_swap.
Qed.

Lemma sort_by_name_perm l : Permutation (sort_by_name l) l.
Proof.
  induction l as [|x l IH]; simpl; [reflexivity|].
  rewrite insert_by_name_perm. now apply perm_skip.
Qed.

Lemma dict_get_perm n l1 l2 :
  Permutation l1 l2 -> NoDup (map m_name l1) -> dict_get n l1 = dict_get n l2.
Proof.
  induction 1 as [|x l1 l2 P IH|x y l|l1 l2 l3 P12 IH12 P23 IH23]; intros ND.
  - reflexivity.
  - simpl. inversion ND; subst. destruct (String.eqb (m_name x) n); auto.
  - simpl. simpl in ND. inversion ND as [|? ? Hy ND']; subst.
    destruct (String.eqb_spec (m_name y) n), (String.eqb_spec (m_name x) n);
      try reflexivity.
    exfalso. apply Hy. left. congruence.
  - rewrite IH12 by assumption. apply IH23.
    eapply Permutation_NoDup; [apply Permutation_map, P12 | assumption].
Qed.

Lemma merge_dict_nodup A B :
  NoDup (map m_name (fold_left step_second B (fold_left step_first A []))).
Proof. apply fold_second_nodup, fold_first_nodup. constructor. Qed.

(** Characterisation of the merged output, name by name. *)
Lemma merge_lookup A B n :
  dict_get n (merge_card_lists A B) = expected n A B.
Proof.
  unfold merge_card_lists.
  rewrite (dict_get_perm n _ _ (sort_by_name_perm _)).
  - change (expected n A B) with (expected n A ([] ++ B)).
    apply second_loop. intros n'.
    change (expected n' A []) with (expected n' ([] ++ A) []).
    apply first_loop. reflexivity.
  - eapply Permutation_NoDup.
    + apply Permutation_map. symmetry. apply sort_by_name_perm.
    + apply merge_dict_nodup.
Qed.

Lemma merge_names_nodup A B : NoDup (map m_name (merge_card_lists A B)).
Proof.
  unfold merge_card_lists.
  eapply Permutation_NoDup.
  - apply Permutation_map. symmetry. apply sort_by_name_perm.
  - apply merge_dict_nodup.
Qed.

(** Sortedness of the output. *)

Definition name_le (x y : Merged) : Prop := String.leb (m_name x) (m_name y) = true.

Lemma ltb_leb a b : String.ltb a b = true -> String.leb a b = true.
Proof. unfold String.ltb, String.leb. now destruct (String.compare a b). Qed.

Lemma not_ltb_leb a b : String.ltb a b = false -> String.leb b a = true.
Proof.
  unfold String.ltb, String.leb. rewrite (String.compare_antisym b a).
  now destruct (String.compare a b).
Qed.

Lemma insert_hdrel x m l :
  HdRel name_le x l -> name_le x m -> HdRel name_le x (insert_by_name m l).
Proof.
  intros H Hxm. destruct l as [|y l]; simpl.
  - now constructor.
  - destruct (String.ltb (m_name y) (m_name m)); constructor; [|assumption].
    now inversion H.
Qed.

Lemma insert_sorted m l : Sorted name_le l -> Sorted name_le (insert_by_name m l).
Proof.
  induction l as [|x l IH]; simpl; intros H.
  - repeat constructor.
  - destruct (String.ltb (m_name x) (m_name m)) eqn:E.
    + inversion H as [|? ? Hl Hx]; subst. constructor.
      * now apply IH.
      * apply insert_hdrel; [assumption|]. now apply ltb_leb.
    + constructor; [assumption|]. constructor. now apply not_ltb_leb.
Qed.

Lemma sort_by_name_sorted l : Sorted name_le (sort_by_name l).
Proof.
  induction l as [|x l IH]; simpl; [constructor|]. now apply insert_sorted.
Qed.

(** Lookups in a list with distinct names. *)

Lemma dict_get_In m l :
  NoDup (map m_name l) -> In m l -> dict_get (m_name m) l = Some m.
Proof.
  induction l as [|x l IH]; simpl; intros ND Hin; [contradiction|].
  inversion ND as [|? ? Hx ND']; subst.
  destruct Hin as [->|Hin].
  - now rewrite String.eqb_refl.
  - destruct (String.eqb_spec (m_name x) (m_name m)) as [E|E].
    + exfalso. apply Hx. rewrite E. now apply in_map.
    + now apply IH.
Qed.

Lemma in_names_get n l : In n (map m_name l) <-> dict_get n l <> None.
Proof.
  split; intros H.
  - intros Hn. apply dict_get_None in Hn. contradiction.
  - destruct (in_dec String.string_dec n (map m_name l)) as [|Hn]; [assumption|].
    exfalso. apply H, dict_get_None, Hn.
Qed.

Lemma str_in_spec x l : str_in x l = true <-> In x l.
Proof.
  unfold str_in. rewrite existsb_exists. split.
  - intros [y [Hy E]]. apply String.eqb_eq in E. now subst.
  - intros H. exists x. split; [assumption | apply String.eqb_refl].
Qed.

Lemma dedup_from_In r : forall l acc, In r (dedup_from acc l) <-> In r acc \/ In r l.
Proof.
  induction l as [|x l IH]; intros acc; simpl; [tauto|].
  unfold dedup_from in *; simpl. rewrite IH.
  destruct (str_in x acc) eqn:E.
  - apply str_in_spec in E. split; [tauto|]. intros [H|[<-|H]]; auto.
  - rewrite in_app_iff; simpl. tauto.
Qed.

Lemma dedup_from_NoDup : forall l acc, NoDup acc -> NoDup (dedup_from acc l).
Proof.
  induction l as [|x l IH]; intros acc H; [assumption|].
  unfold dedup_from in *; simpl. apply IH.
  destruct (str_in x acc) eqn:E; [assumption|].
  apply NoDup_snoc; [assumption|]. intros Hin.
  apply str_in_spec in Hin. congruence.
Qed.

Lemma named_In n l c : In c (named n l) <-> In c l /\ c_name c = n.
Proof.
  unfold named. rewrite filter_In. now rewrite String.eqb_eq.
Qed.

Lemma expected_None n P Q : expected n P Q = None <-> named n (P ++ Q) = [].
Proof.
  unfold expected. destruct (named n (P ++ Q)); split; congruence.
Qed.

Lemma expected_reasons n P Q r :
  In r (match expected n P Q with Some m => m_reasons m | None => [] end) <->
  exists c, In c (P ++ Q) /\ c_name c = n /\ c_reason c = r.
Proof.
  unfold expected. destruct (named n (P ++ Q)) as [|c0 rest] eqn:E.
  - simpl. split; [contradiction|]. intros [c [Hc [Hn _]]].
    assert (Hin : In c (named n (P ++ Q))) by (apply named_In; auto).
    rewrite E in Hin. contradiction.
  - change (In r (dedup_from [] (map c_reason (c0 :: rest))) <->
            exists c, In c (P ++ Q) /\ c_name c = n /\ c_reason c = r).
    rewrite <- E, dedup_from_In, in_map_iff. split.
    + intros [[]|[c [Hr Hc]]]. apply named_In in Hc as [Hc Hn]. eauto.
    + intros [c [Hc [Hn Hr]]]. right. exists c. split; [assumption|].
      apply named_In. auto.
Qed.

Lemma find_named n l :
  find (fun c => String.eqb (c_name c) n) l = hd_error (named n l).
Proof.
  induction l as [|c l IH]; simpl; [reflexivity|].
  unfold named in *; simpl. destruct (String.eqb (c_name c) n); auto.
Qed.

Lemma fold_first_fresh A : forall d,
  NoDup (map c_name A) ->
  (forall c, In c A -> ~ In (c_name c) (map m_name d)) ->
  fold_left step_first A d = d ++ map new_entry A.
Proof.
  induction A as [|c A IH]; simpl; intros d ND Hfresh.
  - now rewrite app_nil_r.
  - inversion ND as [|? ? Hc ND']; subst.
    unfold step_first at 2.
    replace (dict_get (c_name c) d) with (@None Merged)
      by (symmetry; apply dict_get_None; auto).
    rewrite IH; [now rewrite <- app_assoc | assumption |].
    intros c' Hc'. rewrite map_app, in_app_iff. simpl. intros [H|[H|[]]].
    + apply (Hfresh c'); auto.
    + apply Hc. rewrite H. now apply in_map.
Qed.

Lemma dict_get_Some_In n l m : dict_get n l = Some m -> In m l.
Proof.
  induction l as [|x l IH]; simpl; [discriminate|].
  destruct (String.eqb (m_name x) n); [intros [= ->]; now left | auto].
Qed.

Lemma merge_reasons_NoDup A B m :
  In m (merge_card_lists A B) -> NoDup (m_reasons m).
Proof.
  intros Hm. pose proof (dict_get_In m _ (merge_names_nodup A B) Hm) as H.
  rewrite merge_lookup in H. unfold expected in H.
  destruct (named (m_name m) (A ++ B)); [discriminate|].
  injection H as H. rewrite <- H. apply dedup_from_NoDup. repeat constructor. auto.
Qed.

End MergeFacts.

(* ------------------------------------------------------------------ *)
(** ** Claims about [merge_card_lists] *)

Module MergeClaims.
Import Merge MergeSpec MergeFacts.

(** Claim C1 (as amended).  [merge_card_lists] keys its dict by name.
    Records of the first list insert a new entry (name, oracle_text,
    [reason], no rank/inclusion) or append their reason if absent; records
    of the second list do the same and also copy or overwrite
    edhrec_rank and inclusion_percent when they supply them.  Hence the
    entry for a name [n] holds the first matching record's name and
    oracle_text, the distinct reasons in scan order, and the last
    edhrec_rank / inclusion_percent supplied by the SECOND list only. *)
Theorem merge_card_lists_by_name (A B : list CardRecord) (n : string) :
  dict_get n (merge_card_lists A B) =
  match named n (A ++ B) with
  | [] => None
  | c :: _ =>
      Some {| m_name := c_name c; m_oracle := c_oracle c;
              m_reasons := dedup_from [] (map c_reason (named n (A ++ B)));
              m_rank := last_given (map c_rank (named n B));
              m_incl := last_given (map c_incl (named n B)) |}
  end.
Proof. exact (merge_lookup A B n). Qed.

(** Claim C1, counterexample: a record of the FIRST list that supplies
    edhrec_rank 5 and inclusion_percent 3 does not have them stored; the
    merged record has neither key. *)
Lemma merge_first_list_stats_ignored :
  merge_card_lists
    [mkCard "X" "t" "commander_only" (Some (Some 5%Z)) (Some (3 # 1))] [] =
    [mkMerged "X" "t" ["commander_only"] None None] /\
  option_map m_rank
    (dict_get "X" (merge_card_lists
       [mkCard "X" "t" "commander_only" (Some (Some 5%Z)) (Some (3 # 1))] []))
    <> Some (Some (Some 5%Z)).
Proof. split; [reflexivity | simpl; discriminate]. Qed.

(** Claim C2 (as amended).  [merge A B] and [merge B A] have the same set
    of names, and for every name the same set of reasons. *)
Theorem merge_swap_same_names_and_reasons (A B : list CardRecord) :
  (forall n, In n (map m_name (merge_card_lists A B)) <->
             In n (map m_name (merge_card_lists B A))) /\
  (forall n r, In r (reasons_of n (merge_card_lists A B)) <->
               In r (reasons_of n (merge_card_lists B A))).
Proof.
  split.
  - intros n. rewrite !in_names_get, !merge_lookup.
    assert (Hsw : forall X Y, expected n X Y = None -> expected n Y X = None).
    { intros X Y H. apply expected_None in H. apply expected_None.
      rewrite named_app in *. apply app_eq_nil in H as [H1 H2].
      now rewrite H1, H2. }
    split; intros H1 H2; apply H1, Hsw, H2.
  - intros n r. unfold reasons_of. rewrite !merge_lookup, !expected_reasons.
    split; intros [c [Hc R]]; exists c; split; try assumption;
      apply in_app_iff in Hc; apply in_app_iff; tauto.
Qed.

(** Claim C2, counterexample: with no rank or inclusion field anywhere,
    swapping the arguments still changes the result, because the stored
    oracle_text is the one of the record scanned first. *)
Lemma merge_swap_oracle_differs :
  merge_card_lists [mkCard "X" "t1" "r" None None] [mkCard "X" "t2" "r" None None] =
    [mkMerged "X" "t1" ["r"] None None] /\
  merge_card_lists [mkCard "X" "t2" "r" None None] [mkCard "X" "t1" "r" None None] =
    [mkMerged "X" "t2" ["r"] None None] /\
  merge_card_lists [mkCard "X" "t1" "r" None None] [mkCard "X" "t2" "r" None None] <>
  merge_card_lists [mkCard "X" "t2" "r" None None] [mkCard "X" "t1" "r" None None].
Proof. split; [reflexivity | split; [reflexivity | simpl; discriminate]]. Qed.

(** Claim C3 (as amended).  When the names of [A] are pairwise distinct,
    [merge A []] is a reordering of [A]'s records, each turned into a
    merged record with the same name and oracle_text, reasons [[reason]]
    and no edhrec_rank / inclusion_percent. *)
Theorem merge_with_empty_distinct (A : list CardRecord) :
  NoDup (map c_name A) ->
  Permutation (merge_card_lists A []) (map new_entry A).
Proof.
  intros ND. unfold merge_card_lists. simpl.
  etransitivity; [apply sort_by_name_perm|].
  rewrite fold_first_fresh; [reflexivity | assumption | simpl; tauto].
Qed.

Lemma merge_with_empty_distinct_witness :
  NoDup (map c_name [mkCard "B" "tb" "r1" None None; mkCard "A" "ta" "r2" None None]) /\
  Permutation
    (merge_card_lists [mkCard "B" "tb" "r1" None None; mkCard "A" "ta" "r2" None None] [])
    (map new_entry [mkCard "B" "tb" "r1" None None; mkCard "A" "ta" "r2" None None]).
Proof.
  assert (H : NoDup (map c_name [mkCard "B" "tb" "r1" None None;
                                 mkCard "A" "ta" "r2" None None])).
  { simpl. constructor; [simpl; intros [H|[]]; discriminate|].
    constructor; [simpl; tauto | constructor]. }
  split; [exact H | apply merge_with_empty_distinct; exact H].
Defined.

(** Claim C3, counterexample: two records of [A] sharing a name come out
    as ONE merged record, so [merge A []] does not hold each record of
    [A] once (the second oracle_text is gone). *)
Lemma merge_with_empty_combines_same_name :
  merge_card_lists [mkCard "X" "t1" "r1" None None; mkCard "X" "t2" "r2" None None] [] =
    [mkMerged "X" "t1" ["r1"; "r2"] None None] /\
  length (merge_card_lists
            [mkCard "X" "t1" "r1" None None; mkCard "X" "t2" "r2" None None] []) <> 2%nat.
Proof. split; [reflexivity | simpl; discriminate]. Qed.

(** Claim C5.  Every merged record's reasons list has no duplicate; in
    particular a reason given for the same name in both inputs occurs
    exactly once in that name's merged reasons. *)
Theorem merge_reasons_no_duplicates (A B : list CardRecord) :
  Forall (fun m => NoDup (m_reasons m)) (merge_card_lists A B) /\
  (forall a b, In a A -> In b B -> c_name a = c_name b -> c_reason a = c_reason b ->
     exists m, dict_get (c_name a) (merge_card_lists A B) = Some m /\
               count_occ String.string_dec (m_reasons m) (c_reason a) = 1).
Proof.
  split.
  - apply Forall_forall. apply merge_reasons_NoDup.
  - intros a b Ha Hb Hn Hr.
    destruct (dict_get (c_name a) (merge_card_lists A B)) as [m|] eqn:E.
    + exists m. split; [reflexivity|].
      apply NoDup_count_occ'.
      * eapply merge_reasons_NoDup, dict_get_Some_In, E.
      * pose proof (proj2 (expected_reasons (c_name a) A B (c_reason a))) as H.
        rewrite <- merge_lookup, E in H. apply H.
        exists a. split; [apply in_app_iff; auto | auto].
    + exfalso. rewrite merge_lookup in E. apply expected_None in E.
      assert (Hin : In a (named (c_name a) (A ++ B)))
        by (apply named_In; split; [apply in_app_iff; auto | reflexivity]).
      rewrite E in Hin. contradiction.
Qed.

(** Claim C6.  Whatever the order of the input records, the merged output
    is sorted by name in ascending order (and its names are distinct, so
    the order is strict). *)
Theorem merge_sorted_by_name (A B : list CardRecord) :
  Sorted (fun x y => String.leb (m_name x) (m_name y) = true) (merge_card_lists A B) /\
  NoDup (map m_name (merge_card_lists A B)).
Proof.
  split; [apply sort_by_name_sorted | apply merge_names_nodup].
Qed.

(** Claim C10.  The oracle_text stored for a name is that of the first
    record bearing the name in scan order (first list, then second);
    later records never change it. *)
Theorem merge_oracle_first_wins (A B : list CardRecord) (n : string) :
  option_map m_oracle (dict_get n (merge_card_lists A B)) =
  option_map c_oracle (find (fun c => String.eqb (c_name c) n) (A ++ B)).
Proof.
  rewrite merge_lookup, find_named. unfold expected.
  destruct (named n (A ++ B)); reflexivity.
Qed.

End MergeClaims.

(* ------------------------------------------------------------------ *)
(** ** Slug facts *)

Module SlugFacts.
Import Slug SlugSpec.

Lemma collapse_runs_In p b l c :
  In c (collapse_runs p b l) -> c = "-"%char \/ (In c l /\ p c = false).
Proof.
  revert b. induction l as [|x l IH]; simpl; intros b H; [contradiction|].
  destruct (p x) eqn:Ex; [destruct b|]; simpl in H.
  - destruct (IH _ H) as [|[]]; auto.
  - destruct H as [<-|H]; [now left|]. destruct (IH _ H) as [|[]]; auto.
  - destruct H as [<-|H]; [now right; auto|]. destruct (IH _ H) as [|[]]; auto.
Qed.

Lemma lstrip_suffix l : exists pre, l = pre ++ lstrip_hyphen l.
Proof.
  induction l as [|c l [pre IH]]; simpl; [now exists []|].
  destruct (is_hyphen c); [exists (c :: pre); simpl; congruence | now exists []].
Qed.

Lemma rstrip_prefix l : exists suf, l = rstrip_hyphen l ++ suf.
Proof.
  induction l as [|c l [suf IH]]; simpl; [now exists []|].
  destruct (rstrip_hyphen l) as [|x t] eqn:E.
  - destruct (is_hyphen c); [exists (c :: l) | exists l]; reflexivity.
  - exists suf. rewrite IH at 1. reflexivity.
Qed.

Lemma strip_In l c : In c (strip_hyphen l) -> In c l.
Proof.
  unfold strip_hyphen. intros H.
  destruct (rstrip_prefix (lstrip_hyphen l)) as [suf E1].
  destruct (lstrip_suffix l) as [pre E2].
  rewrite E2, E1, !in_app_iff. auto.
Qed.

Lemma sanitize_chars_slug_char l :
  Forall (fun c => slug_char c = true) (sanitize_chars l).
Proof.
  apply Forall_forall. intros c H. unfold sanitize_chars in H.
  apply strip_In, collapse_runs_In in H as [->|[H _]]; [reflexivity|].
  apply collapse_runs_In in H as [->|[H Hs]]; [reflexivity|].
  apply filter_In in H as [_ Hk]. unfold kept in Hk. unfold slug_char.
  rewrite Hs in Hk. now rewrite orb_false_r in Hk.
Qed.

Lemma collapse_hyphen_shape l : forall b,
  no_double_hyphen (collapse_runs is_hyphen b l) = true /\
  (b = true -> head_ok (collapse_runs is_hyphen b l) = true).
Proof.
  induction l as [|c l IH]; intros b; simpl; [auto|].
  destruct (is_hyphen c) eqn:Ec; [destruct b|].
  - apply IH.
  - destruct (IH true) as [H1 H2]. split; [|discriminate].
    simpl. rewrite H1, andb_true_r.
    specialize (H2 eq_refl).
    destruct (collapse_runs is_hyphen true l) as [|y t]; [reflexivity|].
    simpl in H2 |- *. now destruct (is_hyphen y).
  - destruct (IH false) as [H1 _]. split.
    + simpl. rewrite H1, andb_true_r.
      destruct (collapse_runs is_hyphen false l); [reflexivity|].
      now rewrite Ec.
    + intros _. simpl. now rewrite Ec.
Qed.

Lemma no_double_cons_inv a l : no_double_hyphen (a :: l) = true -> no_double_hyphen l = true.
Proof. simpl. destruct l; [reflexivity|]. now intros [_ H]%andb_prop. Qed.

Lemma lstrip_no_double l : no_double_hyphen l = true -> no_double_hyphen (lstrip_hyphen l) = true.
Proof.
  induction l as [|c l IH]; [auto|]. intros H.
  pose proof (no_double_cons_inv _ _ H) as Hl. simpl.
  destruct (is_hyphen c); [apply IH, Hl | exact H].
Qed.

Lemma lstrip_head_ok l : head_ok (lstrip_hyphen l) = true.
Proof.
  induction l as [|c l IH]; simpl; [reflexivity|].
  destruct (is_hyphen c) eqn:E; [exact IH | simpl; now rewrite E].
Qed.

Lemma rstrip_no_double l : no_double_hyphen l = true -> no_double_hyphen (rstrip_hyphen l) = true.
Proof.
  induction l as [|c l IH]; simpl; [auto|]. intros H.
  pose proof (no_double_cons_inv _ _ H) as Hl.
  destruct (rstrip_prefix l) as [suf Esuf].
  destruct (rstrip_hyphen l) as [|x t] eqn:E.
  - destruct (is_hyphen c); reflexivity.
  - simpl in Esuf. rewrite Esuf in H. simpl in H.
    apply andb_prop in H as [Hcx _].
    change (no_double_hyphen (c :: x :: t)) with
      (negb (is_hyphen c && is_hyphen x) && no_double_hyphen (x :: t)).
    rewrite Hcx. simpl. now apply IH.
Qed.

Lemma rstrip_head_ok l : head_ok l = true -> head_ok (rstrip_hyphen l) = true.
Proof.
  destruct (rstrip_prefix l) as [suf E]. intros H.
  destruct (rstrip_hyphen l) as [|x t]; [reflexivity|].
  rewrite E in H. exact H.
Qed.

Lemma last_ok_cons c l : l <> [] -> last_ok (c :: l) = last_ok l.
Proof.
  intros Hl. unfold last_ok. simpl.
  destruct (rev l) as [|x t] eqn:E.
  - exfalso. apply Hl. rewrite <- (rev_involutive l), E. reflexivity.
  - reflexivity.
Qed.

Lemma rstrip_last_ok l : last_ok (rstrip_hyphen l) = true.
Proof.
  induction l as [|c l IH]; simpl; [reflexivity|].
  destruct (rstrip_hyphen l) as [|x t] eqn:E.
  - destruct (is_hyphen c) eqn:Ec; [reflexivity|].
    unfold last_ok. simpl. now rewrite Ec.
  - rewrite last_ok_cons by discriminate. exact IH.
Qed.

Lemma sanitize_chars_shape l :
  no_double_hyphen (sanitize_chars l) = true /\
  head_ok (sanitize_chars l) = true /\
  last_ok (sanitize_chars l) = true.
Proof.
  unfold sanitize_chars, strip_hyphen.
  split; [|split].
  - apply rstrip_no_double, lstrip_no_double, collapse_hyphen_shape.
  - apply rstrip_head_ok, lstrip_head_ok.
  - apply rstrip_last_ok.
Qed.

End SlugFacts.

(* ------------------------------------------------------------------ *)
(** ** Percentage facts *)

Module PercentFacts.
Import Slug Percent.

Lemma span_digits_app l : l = fst (span_digits l) ++ snd (span_digits l).
Proof.
  induction l as [|c l IH]; simpl; [reflexivity|].
  destruct (is_digit c); [|reflexivity].
  destruct (span_digits l) as [d r]. simpl in *. now f_equal.
Qed.

Lemma match_at_percent l g : match_at l = Some g -> In "%"%char l.
Proof.
  unfold match_at. pose proof (span_digits_app l) as E.
  destruct (span_digits l) as [d1 r1]. simpl in E. rewrite E.
  destruct d1 as [|a d1]; [discriminate|].
  destruct r1 as [|c r2]; [discriminate|].
  intros H. apply in_app_iff. right.
  destruct (Ascii.eqb_spec c "%") as [->|_]; [now left|].
  destruct (Ascii.eqb c "."); [|discriminate].
  pose proof (span_digits_app r2) as E2.
  destruct (span_digits r2) as [d2 r3]. simpl in E2.
  destruct r3 as [|c' r4]; [discriminate|].
  destruct (Ascii.eqb_spec c' "%") as [->|_]; [|discriminate].
  right. rewrite E2. apply in_app_iff. right. now left.
Qed.

Lemma re_search_percent_In l g : re_search_percent l = Some g -> In "%"%char l.
Proof.
  induction l as [|c l IH]; simpl.
  - unfold match_at. simpl. discriminate.
  - destruct (match_at (c :: l)) eqn:E.
    + intros _. exact (match_at_percent _ _ E).
    + intros H. right. now apply IH.
Qed.

End PercentFacts.

(* ------------------------------------------------------------------ *)
(** ** Claims about the slug and the percentage *)

Module HelperClaims.
Import Slug SlugSpec SlugFacts Percent PercentFacts Fetch.

(** Claim C7.  [sanitize_card_name] maps "Uril, the Miststalker" to
    "uril-the-miststalker" and "Kenrith's Transformation" to
    "kenriths-transformation"; runs of spaces become one hyphen and edge
    punctuation leaves no edge hyphen.  For every name, the slug consists
    of lowercase letters, digits and hyphens only, has no two adjacent
    hyphens, and neither starts nor ends with a hyphen. *)
Theorem sanitize_card_name_slug :
  sanitize_card_name "Uril, the Miststalker" = "uril-the-miststalker" /\
  sanitize_card_name "Kenrith's Transformation" = "kenriths-transformation" /\
  sanitize_card_name "Uril,   the     Miststalker" = "uril-the-miststalker" /\
  sanitize_card_name "(Uril, the Miststalker)!" = "uril-the-miststalker" /\
  sanitize_card_name "- Uril -" = "uril" /\
  (forall name,
     let l := list_ascii_of_string (sanitize_card_name name) in
     Forall (fun c => slug_char c = true) l /\
     no_double_hyphen l = true /\ head_ok l = true /\ last_ok l = true).
Proof.
  split; [reflexivity|]. split; [reflexivity|]. split; [reflexivity|].
  split; [reflexivity|]. split; [reflexivity|].
  intros name. cbv zeta. unfold sanitize_card_name.
  rewrite list_ascii_of_string_of_list_ascii.
  split; [apply sanitize_chars_slug_char | apply sanitize_chars_shape].
Qed.

(** Claim C8.  The label "In 700 decks \n0.09% of 814495 decks" yields
    0.09; a label with no percent sign yields no value; and
    [get_edhrec_inclusion] returns exactly the value parsed from the label
    of a successful statistics reply (so such a card is skipped). *)
Theorem percent_extraction :
  percent_of_label ("In 700 decks " ++ String "010"%char "0.09% of 814495 decks") =
    Some (9 # 100) /\
  (forall label, ~ In "%"%char (list_ascii_of_string label) ->
     percent_of_label label = None) /\
  (forall svc name label, svc (edhrec_url name) = EdhResponse 200 label ->
     fst (get_edhrec_inclusion svc name) = percent_of_label label).
Proof.
  split; [reflexivity|]. split.
  - intros label H. unfold percent_of_label.
    destruct (re_search_percent (list_ascii_of_string label)) eqn:E; [|reflexivity].
    exfalso. apply H. eapply re_search_percent_In, E.
  - intros svc name label H. unfold get_edhrec_inclusion. now rewrite H.
Qed.

End HelperClaims.

(* ------------------------------------------------------------------ *)
(** ** Fetcher facts *)

Module FetchFacts.
Import Fetch.

Lemma edhrec_requests_app l1 l2 :
  edhrec_requests (l1 ++ l2) = edhrec_requests l1 ++ edhrec_requests l2.
Proof. apply flat_map_app. Qed.

Lemma catalog_requests_app l1 l2 :
  catalog_requests (l1 ++ l2) = catalog_requests l1 ++ catalog_requests l2.
Proof. apply flat_map_app. Qed.

(** One statistics lookup issues exactly one statistics request, for the
    card's slug, and no catalog request. *)
Lemma get_edhrec_inclusion_requests svc n :
  edhrec_requests (snd (get_edhrec_inclusion svc n)) = [edhrec_url n] /\
  catalog_requests (snd (get_edhrec_inclusion svc n)) = [].
Proof.
  unfold get_edhrec_inclusion.
  destruct (svc (edhrec_url n)) as [e|st label]; [split; reflexivity|].
  destruct (Z.eqb st 200); split; reflexivity.
Qed.

Lemma search_url_nonempty : String.eqb SEARCH_URL "" = false.
Proof. reflexivity. Qed.

(** The commander-only pagination loop over successful pages that all
    announce a next page, followed by a failing page. *)
Lemma co_pages_error oks err rest : forall u page cards tr,
  u <> "" ->
  Forall (fun r => status r = 200%Z /\ has_more r = true /\
                   exists u', next_page r = Some u' /\ u' <> "") oks ->
  status err <> 200%Z ->
  exists tr',
    co_pages (oks ++ err :: rest) (Some u) page cards tr =
    Some (cards ++ concat (map (fun r => map to_commander_only (data r)) oks),
          tr' ++ [EvPrint (MsgError (status err) (text err))]).
Proof.
  induction oks as [|r oks IH]; intros u page cards tr Hu Hoks Herr; simpl.
  - apply String.eqb_neq in Hu. rewrite Hu.
    apply Z.eqb_neq in Herr. rewrite Herr. simpl.
    rewrite app_nil_r. eexists. reflexivity.
  - apply String.eqb_neq in Hu. rewrite Hu.
    inversion Hoks as [|? ? [Hst [Hm [u' [Hn Hu']]]] Hoks']; subst.
    rewrite Hst, Hm, Hn. simpl.
    destruct (IH u' (S page) (cards ++ map to_commander_only (data r))
                 ((tr ++ [EvPrint (MsgFetchingPage page); EvCatalogGet u (Nat.eqb page 1)])
                     ++ [EvSleep]) Hu' Hoks' Herr) as [tr' E].
    exists tr'. rewrite E. now rewrite <- app_assoc.
Qed.

End FetchFacts.

(* ------------------------------------------------------------------ *)
(** ** Claims about the fetchers *)

Module FetchClaims.
Import Fetch FetchFacts.

(** Claim C4.  With threshold 7.5 and a rank-ordered page whose cards have
    inclusion 10.0, 8.0, 3.0 and 9.0, the scan emits records for the first
    two cards, stops at the third, never looks up the fourth and never
    requests another catalog page.  A card whose lookup gives no
    percentage is skipped: the scan goes on with the next card, with the
    same records and nothing stopped. *)
Theorem early_stop_scan (svc : string -> EdhrecResponse) (fmt : Q -> string)
    (c1 c2 c3 c4 : ScryCard) (p1 p2 p3 p4 : Q) (r1 : Response) (rest : list Response)
    (H1 : fst (get_edhrec_inclusion svc (sc_name c1)) = Some p1) (Q1 : Qeq p1 (10 # 1))
    (H2 : fst (get_edhrec_inclusion svc (sc_name c2)) = Some p2) (Q2 : Qeq p2 (8 # 1))
    (H3 : fst (get_edhrec_inclusion svc (sc_name c3)) = Some p3) (Q3 : Qeq p3 (3 # 1))
    (H4 : fst (get_edhrec_inclusion svc (sc_name c4)) = Some p4) (Q4 : Qeq p4 (9 # 1))
    (Hst : status r1 = 200%Z) (Hdata : data r1 = [c1; c2; c3; c4]) :
  (exists tr,
     fetch_high_inclusion_cards svc fmt (15 # 2) (r1 :: rest) =
       Some ([to_high_inclusion fmt c1 p1; to_high_inclusion fmt c2 p2], tr) /\
     edhrec_requests tr = [edhrec_url (sc_name c1); edhrec_url (sc_name c2);
                           edhrec_url (sc_name c3)] /\
     catalog_requests tr = [SEARCH_URL]) /\
  (forall threshold c cs checked cards tr,
     fst (get_edhrec_inclusion svc (sc_name c)) = None ->
     exists tr', hi_cards svc fmt threshold (c :: cs) checked cards tr =
                 hi_cards svc fmt threshold cs (S checked) cards tr').
Proof.
  split.
  - destruct (get_edhrec_inclusion_requests svc (sc_name c1)) as [R1 K1].
    destruct (get_edhrec_inclusion_requests svc (sc_name c2)) as [R2 K2].
    destruct (get_edhrec_inclusion_requests svc (sc_name c3)) as [R3 K3].
    destruct (get_edhrec_inclusion svc (sc_name c1)) as [o1 e1] eqn:E1.
    destruct (get_edhrec_inclusion svc (sc_name c2)) as [o2 e2] eqn:E2.
    destruct (get_edhrec_inclusion svc (sc_name c3)) as [o3 e3] eqn:E3.
    simpl in H1, H2, H3, R1, R2, R3, K1, K2, K3. subst o1 o2 o3.
    assert (L1 : Qle_bool (15 # 2) p1 = true)
      by (apply Qle_bool_iff; rewrite Q1; unfold Qle; simpl; lia).
    assert (L2 : Qle_bool (15 # 2) p2 = true)
      by (apply Qle_bool_iff; rewrite Q2; unfold Qle; simpl; lia).
    assert (L3 : Qle_bool (15 # 2) p3 = false).
    { apply not_true_is_false. rewrite Qle_bool_iff, Q3. unfold Qle; simpl; lia. }
    destruct r1 as [st tx dt hm np]. simpl in Hst, Hdata. subst st dt.
    unfold fetch_high_inclusion_cards. simpl.
    rewrite E1, E2, E3, L1, L2, L3. simpl.
    eexists. split; [reflexivity|].
    unfold edhrec_requests, catalog_requests in *.
    split; simpl; rewrite !flat_map_app; simpl.
    + rewrite R1, R2, R3. reflexivity.
    + rewrite K1, K2, K3. reflexivity.
  - intros threshold c cs checked cards tr H. simpl.
    destruct (get_edhrec_inclusion svc (sc_name c)) as [o e].
    simpl in H. subst o. eexists. reflexivity.
Qed.
Lemma early_stop_scan_witness :
  let svc := fun url =>
    if String.eqb url (edhrec_url "Sol Ring") then EdhResponse 200 "In 9 decks 10.0% of 90"
    else if String.eqb url (edhrec_url "Arcane Signet") then EdhResponse 200 "8.0%"
    else if String.eqb url (edhrec_url "Uril, the Miststalker") then EdhResponse 200 "3%"
    else EdhResponse 200 "9.0%" in
  let fmt := fun _ : Q => "x" in
  let c1 := mkScry "Sol Ring" "T: Add CC." (Some 1%Z) in
  let c2 := mkScry "Arcane Signet" "T: Add one mana." (Some 2%Z) in
  let c3 := mkScry "Uril, the Miststalker" "Hexproof" (Some 3%Z) in
  let c4 := mkScry "Command Tower" "T: Add mana." (Some 4%Z) in
  let r1 := mkResponse 200 "" [c1; c2; c3; c4] true (Some "https://next") in
  fst (get_edhrec_inclusion svc (sc_name c1)) = Some (100 # 10) /\
  fst (get_edhrec_inclusion svc (sc_name c2)) = Some (80 # 10) /\
  fst (get_edhrec_inclusion svc (sc_name c3)) = Some (3 # 1) /\
  fst (get_edhrec_inclusion svc (sc_name c4)) = Some (90 # 10) /\
  ((exists tr,
     fetch_high_inclusion_cards svc fmt (15 # 2) [r1] =
       Some ([to_high_inclusion fmt c1 (100 # 10); to_high_inclusion fmt c2 (80 # 10)], tr) /\
     edhrec_requests tr = [edhrec_url (sc_name c1); edhrec_url (sc_name c2);
                           edhrec_url (sc_name c3)] /\
     catalog_requests tr = [SEARCH_URL]) /\
  (forall threshold c cs checked cards tr,
     fst (get_edhrec_inclusion svc (sc_name c)) = None ->
     exists tr', hi_cards svc fmt threshold (c :: cs) checked cards tr =
                 hi_cards svc fmt threshold cs (S checked) cards tr')).
Proof.
  intros svc fmt c1 c2 c3 c4 r1.
  split; [vm_compute; reflexivity|]. split; [vm_compute; reflexivity|].
  split; [vm_compute; reflexivity|]. split; [vm_compute; reflexivity|].
  apply (early_stop_scan svc fmt c1 c2 c3 c4 (100 # 10) (80 # 10) (3 # 1) (90 # 10) r1 []);
    vm_compute; reflexivity.
Defined.

(** Claim C9.  When the catalog replies with successful pages (each
    announcing a next page) and then a non-success status, the
    commander-only fetch prints the error, requests nothing further, and
    returns exactly the records of the earlier pages, normally (then
    prints its count).  The high-inclusion loop likewise returns the
    records accumulated so far when it meets a non-success page. *)
Theorem catalog_error_partial_result (oks : list Response) (err : Response)
    (rest : list Response)
    (Hoks : Forall (fun r => status r = 200%Z /\ has_more r = true /\
                             exists u, next_page r = Some u /\ u <> "") oks)
    (Herr : status err <> 200%Z) :
  (exists tr,
     fetch_commander_only_cards (oks ++ err :: rest) =
     Some (concat (map (fun r => map to_commander_only (data r)) oks),
           tr ++ [EvPrint (MsgError (status err) (text err));
                  EvPrint (MsgFoundCommanderOnly
                    (length (concat (map (fun r => map to_commander_only (data r)) oks))))])) /\
  (forall svc fmt threshold u page checked cards tr, u <> "" ->
     hi_pages svc fmt threshold (err :: rest) (Some u) page checked cards tr =
     Some (cards, tr ++ [EvPrint (MsgFetchingScryfallPage page);
                         EvCatalogGet u (Nat.eqb page 1);
                         EvPrint (MsgError (status err) (text err))])).
Proof.
  split.
  - assert (Hu : SEARCH_URL <> "") by (apply String.eqb_neq, search_url_nonempty).
    destruct (co_pages_error oks err rest SEARCH_URL 1 [] [EvPrint MsgFetchingCommanderOnly]
                Hu Hoks Herr) as [tr' E].
    unfold fetch_commander_only_cards. rewrite E. simpl.
    exists tr'. now rewrite <- app_assoc.
  - intros svc fmt threshold u page checked cards tr Hu. simpl.
    apply String.eqb_neq in Hu. rewrite Hu.
    apply Z.eqb_neq in Herr. rewrite Herr. simpl.
    now rewrite <- app_assoc.
Qed.

Lemma catalog_error_partial_result_witness :
  let oks := [mkResponse 200 "" [mkScry "Sol Ring" "T: Add CC." (Some 1%Z)] true
                (Some "https://api.scryfall.com/cards/search?page=2")] in
  let err := mkResponse 429 "Too Many Requests" [] false None in
  Forall (fun r => status r = 200%Z /\ has_more r = true /\
                   exists u, next_page r = Some u /\ u <> "") oks /\
  status err <> 200%Z /\
  ((exists tr,
     fetch_commander_only_cards (oks ++ err :: []) =
     Some (concat (map (fun r => map to_commander_only (data r)) oks),
           tr ++ [EvPrint (MsgError (status err) (text err));
                  EvPrint (MsgFoundCommanderOnly
                    (length (concat (map (fun r => map to_commander_only (data r)) oks))))])) /\
  (forall svc fmt threshold u page checked cards tr, u <> "" ->
     hi_pages svc fmt threshold (err :: []) (Some u) page checked cards tr =
     Some (cards, tr ++ [EvPrint (MsgFetchingScryfallPage page);
                         EvCatalogGet u (Nat.eqb page 1);
                         EvPrint (MsgError (status err) (text err))]))).
Proof.
  intros oks err.
  assert (Hoks : Forall (fun r => status r = 200%Z /\ has_more r = true /\
                   exists u, next_page r = Some u /\ u <> "") oks).
  { constructor; [|constructor].
    split; [reflexivity|]. split; [reflexivity|].
    eexists. split; [reflexivity | discriminate]. }
  assert (Herr : status err <> 200%Z) by discriminate.
  split; [exact Hoks|]. split; [exact Herr|].
  exact (catalog_error_partial_result oks err [] Hoks Herr).
Defined.

End FetchClaims.

(* ------------------------------------------------------------------ *)
(** ** Further fetcher facts *)

Module ScanFacts.
Import Fetch FetchSpec FetchFacts.

Section Scan.
Variable svc : string -> EdhrecResponse.
Variable fmt : Q -> string.
Variable th : Q.

Lemma hi_cards_step c cs k cards tr :
  hi_cards svc fmt th (c :: cs) k cards tr =
  let chk := if Nat.eqb (S k mod 25) 0
             then [EvPrint (MsgChecked (S k) (length cards))] else [] in
  let ev := snd (get_edhrec_inclusion svc (sc_name c)) in
  match fst (get_edhrec_inclusion svc (sc_name c)) with
  | None => hi_cards svc fmt th cs (S k) cards (tr ++ chk ++ ev)
  | Some p =>
      if Qle_bool th p then
        hi_cards svc fmt th cs (S k) (cards ++ [to_high_inclusion fmt c p])
                 (tr ++ chk ++ ev ++ [EvSleep])
      else mkScan cards (S k) true
             (tr ++ chk ++ ev ++ [EvPrint (MsgReachedThreshold (sc_name c) p th);
                                  EvPrint (MsgStoppingAfter (S k))])
  end.
Proof.
  cbn [hi_cards]. destruct (get_edhrec_inclusion svc (sc_name c)) as [o e].
  cbn [fst snd].
  destruct (Nat.eqb (S k mod 25) 0); destruct o as [p|];
    try destruct (Qle_bool th p); rewrite ?app_nil_l, <- ?app_assoc; reflexivity.
Qed.

Lemma chk_requests (b : bool) m :
  edhrec_requests (if b then [EvPrint m] else []) = [] /\
  catalog_requests (if b then [EvPrint m] else []) = [].
Proof. destruct b; split; reflexivity. Qed.

Lemma emitted_cons c cs :
  emitted svc fmt (c :: cs) =
  match fst (get_edhrec_inclusion svc (sc_name c)) with
  | Some p => [to_high_inclusion fmt c p]
  | None => []
  end ++ emitted svc fmt cs.
Proof. reflexivity. Qed.

(** A page whose cards all pass is scanned to its end. *)
Lemma hi_cards_pass cs : forall k cards tr,
  forallb (passes svc th) cs = true ->
  exists tr',
    hi_cards svc fmt th cs k cards tr =
      mkScan (cards ++ emitted svc fmt cs) (k + length cs) false (tr ++ tr') /\
    edhrec_requests tr' = card_urls cs /\ catalog_requests tr' = [].
Proof.
  induction cs as [|c cs IH]; intros k cards tr Hp.
  - exists []. rewrite !app_nil_r, Nat.add_0_r. now split.
  - simpl in Hp. apply andb_prop in Hp as [Hc Hp].
    rewrite hi_cards_step, emitted_cons. cbv zeta.
    destruct (get_edhrec_inclusion_requests svc (sc_name c)) as [R K].
    destruct (chk_requests (Nat.eqb (S k mod 25) 0) (MsgChecked (S k) (length cards)))
      as [R0 K0].
    unfold passes in Hc.
    destruct (fst (get_edhrec_inclusion svc (sc_name c))) as [p|].
    + rewrite Hc.
      destruct (IH (S k) (cards ++ [to_high_inclusion fmt c p])
                  (tr ++ (if Nat.eqb (S k mod 25) 0
                          then [EvPrint (MsgChecked (S k) (length cards))] else []) ++
                   snd (get_edhrec_inclusion svc (sc_name c)) ++ [EvSleep]) Hp)
        as [tr' [E [R' K']]].
      rewrite E. eexists. split.
      * replace (k + length (c :: cs)) with (S k + length cs) by (simpl; lia).
        rewrite <- !app_assoc. reflexivity.
      * rewrite !edhrec_requests_app, !catalog_requests_app, R0, K0, R, K, R', K'.
        split; reflexivity.
    + destruct (IH (S k) cards
                  (tr ++ (if Nat.eqb (S k mod 25) 0
                          then [EvPrint (MsgChecked (S k) (length cards))] else []) ++
                   snd (get_edhrec_inclusion svc (sc_name c))) Hp)
        as [tr' [E [R' K']]].
      rewrite E. eexists. split.
      * replace (k + length (c :: cs)) with (S k + length cs) by (simpl; lia).
        rewrite <- !app_assoc. reflexivity.
      * rewrite !edhrec_requests_app, !catalog_requests_app, R0, K0, R, K, R', K'.
        split; reflexivity.
Qed.

(** The first card below the threshold ends the scan of the page. *)
Lemma hi_cards_stop pre c post p : forall k cards tr,
  forallb (passes svc th) pre = true ->
  fst (get_edhrec_inclusion svc (sc_name c)) = Some p ->
  Qle_bool th p = false ->
  exists tr',
    hi_cards svc fmt th (pre ++ c :: post) k cards tr =
      mkScan (cards ++ emitted svc fmt pre) (k + S (length pre)) true (tr ++ tr') /\
    edhrec_requests tr' = card_urls (pre ++ [c]) /\ catalog_requests tr' = [].
Proof.
  induction pre as [|c0 pre IH]; intros k cards tr Hp Hc Hq.
  - simpl app. rewrite hi_cards_step. cbv zeta. rewrite Hc, Hq.
    destruct (get_edhrec_inclusion_requests svc (sc_name c)) as [R K].
    destruct (chk_requests (Nat.eqb (S k mod 25) 0) (MsgChecked (S k) (length cards)))
      as [R0 K0].
    eexists. split.
    + rewrite app_nil_r, Nat.add_1_r. reflexivity.
    + rewrite !edhrec_requests_app, !catalog_requests_app, R0, K0, R, K.
      split; reflexivity.
  - simpl in Hp. apply andb_prop in Hp as [Hc0 Hp].
    rewrite <- app_comm_cons, hi_cards_step, emitted_cons. cbv zeta.
    destruct (get_edhrec_inclusion_requests svc (sc_name c0)) as [R K].
    destruct (chk_requests (Nat.eqb (S k mod 25) 0) (MsgChecked (S k) (length cards)))
      as [R0 K0].
    unfold passes in Hc0.
    destruct (fst (get_edhrec_inclusion svc (sc_name c0))) as [p0|].
    + rewrite Hc0.
      destruct (IH (S k) (cards ++ [to_high_inclusion fmt c0 p0])
                  (tr ++ (if Nat.eqb (S k mod 25) 0
                          then [EvPrint (MsgChecked (S k) (length cards))] else []) ++
                   snd (get_edhrec_inclusion svc (sc_name c0)) ++ [EvSleep]) Hp Hc Hq)
        as [tr' [E [R' K']]].
      rewrite E. eexists. split.
      * replace (k + S (length (c0 :: pre))) with (S k + S (length pre)) by (simpl; lia).
        rewrite <- !app_assoc. reflexivity.
      * rewrite !edhrec_requests_app, !catalog_requests_app, R0, K0, R, K, R', K'.
        split; reflexivity.
    + destruct (IH (S k) cards
                  (tr ++ (if Nat.eqb (S k mod 25) 0
                          then [EvPrint (MsgChecked (S k) (length cards))] else []) ++
                   snd (get_edhrec_inclusion svc (sc_name c0))) Hp Hc Hq)
        as [tr' [E [R' K']]].
      rewrite E. eexists. split.
      * replace (k + S (length (c0 :: pre))) with (S k + S (length pre)) by (simpl; lia).
        rewrite <- !app_assoc. reflexivity.
      * rewrite !edhrec_requests_app, !catalog_requests_app, R0, K0, R, K, R', K'.
        split; reflexivity.
Qed.

End Scan.

End ScanFacts.

Module PageFacts.
Import Fetch FetchSpec FetchFacts ScanFacts.

Lemma next_urls_cons r rs u :
  next_page r = Some u -> next_urls (r :: rs) = u :: next_urls rs.
Proof. intros H. unfold next_urls. simpl. now rewrite H. Qed.

(** [while url] ends on a missing or empty URL, whatever replies remain. *)
Lemma co_pages_end resps url page cards tr :
  url = None \/ url = Some "" -> co_pages resps url page cards tr = Some (cards, tr).
Proof. intros [-> | ->]; destruct resps; reflexivity. Qed.

Lemma hi_pages_end svc fmt th resps url page k cards tr :
  url = None \/ url = Some "" -> hi_pages svc fmt th resps url page k cards tr = Some (cards, tr).
Proof. intros [-> | ->]; destruct resps; reflexivity. Qed.

(** The commander-only loop over successful pages that announce a next
    page, ended by a page after which [while url] stops. *)
Lemma co_pages_complete oks lst rest : forall u page cards tr,
  u <> "" -> Forall continues oks -> last_page lst ->
  exists tr',
    co_pages (oks ++ lst :: rest) (Some u) page cards tr =
      Some (cards ++ concat (map (fun r => map to_commander_only (data r)) (oks ++ [lst])),
            tr ++ tr') /\
    catalog_requests tr' = u :: next_urls oks.
Proof.
  induction oks as [|r oks IH]; intros u page cards tr Hu Hoks [Hst Hend].
  - simpl. apply String.eqb_neq in Hu. rewrite Hu, Hst. simpl. rewrite app_nil_r.
    destruct (has_more lst) eqn:Hm.
    + destruct Hend as [Hf|Hn]; [congruence|]. rewrite (co_pages_end _ _ _ _ _ Hn).
      eexists; split; [rewrite <- app_assoc; reflexivity | reflexivity].
    + eexists; split; reflexivity.
  - inversion Hoks as [|? ? [Hst' [Hm [u' [Hn Hu']]]] Hoks']; subst.
    simpl. apply String.eqb_neq in Hu. rewrite Hu, Hst', Hm, Hn. simpl.
    destruct (IH u' (S page) (cards ++ map to_commander_only (data r))
                 ((tr ++ [EvPrint (MsgFetchingPage page); EvCatalogGet u (Nat.eqb page 1)])
                     ++ [EvSleep]) Hu' Hoks' (conj Hst Hend)) as [tr' [E K]].
    rewrite E.
    exists ([EvPrint (MsgFetchingPage page); EvCatalogGet u (Nat.eqb page 1); EvSleep] ++ tr').
    split.
    + rewrite <- !app_assoc. reflexivity.
    + rewrite catalog_requests_app, K. reflexivity.
Qed.

(** Whatever the replies, the commander-only loop only appends records
    built by [to_commander_only]. *)
Lemma co_pages_extends resps : forall url page cards tr cards' tr',
  co_pages resps url page cards tr = Some (cards', tr') ->
  exists scs, cards' = cards ++ map to_commander_only scs.
Proof.
  induction resps as [|r rest IH]; intros url page cards tr cards' tr' H;
    destruct url as [u|]; simpl in H;
    try (injection H as <- <-; exists []; now rewrite app_nil_r).
  - destruct (String.eqb u ""); [|discriminate].
    injection H as <- <-; exists []; now rewrite app_nil_r.
  - destruct (String.eqb u "").
    { injection H as <- <-; exists []; now rewrite app_nil_r. }
    destruct (negb (Z.eqb (status r) 200)).
    { injection H as <- <-; exists []; now rewrite app_nil_r. }
    destruct (has_more r).
    + destruct (IH _ _ _ _ _ _ H) as [scs E].
      exists (data r ++ scs). now rewrite E, map_app, app_assoc.
    + injection H as <- <-. now exists (data r).
Qed.

Section Pages.
Variable svc : string -> EdhrecResponse.
Variable fmt : Q -> string.
Variable th : Q.

Lemma emitted_app l1 l2 :
  emitted svc fmt (l1 ++ l2) = emitted svc fmt l1 ++ emitted svc fmt l2.
Proof. apply flat_map_app. Qed.

Lemma card_urls_app l1 l2 : card_urls (l1 ++ l2) = card_urls l1 ++ card_urls l2.
Proof. apply map_app. Qed.

(** The high-inclusion loop over pages whose cards all pass, then a page
    with a card below the threshold. *)
Lemma hi_pages_stop oks r rest pre c post p : forall u page k cards tr,
  u <> "" -> Forall continues oks ->
  Forall (fun r => forallb (passes svc th) (data r) = true) oks ->
  status r = 200%Z -> data r = pre ++ c :: post ->
  forallb (passes svc th) pre = true ->
  fst (get_edhrec_inclusion svc (sc_name c)) = Some p -> Qle_bool th p = false ->
  exists tr',
    hi_pages svc fmt th (oks ++ r :: rest) (Some u) page k cards tr =
      Some (cards ++ emitted svc fmt (concat (map data oks) ++ pre), tr ++ tr') /\
    edhrec_requests tr' = card_urls (concat (map data oks) ++ pre ++ [c]) /\
    catalog_requests tr' = u :: next_urls oks.
Proof.
  induction oks as [|r0 oks IH]; intros u page k cards tr Hu Hc Hp Hst Hd Hpre Hcp Hq.
  - simpl. apply String.eqb_neq in Hu. rewrite Hu, Hst, Hd. simpl.
    destruct (hi_cards_stop svc fmt th pre c post p k cards
                (tr ++ [EvPrint (MsgFetchingScryfallPage page); EvCatalogGet u (Nat.eqb page 1)])
                Hpre Hcp Hq) as [tr' [E [R K]]].
    rewrite E. simpl.
    exists ([EvPrint (MsgFetchingScryfallPage page); EvCatalogGet u (Nat.eqb page 1)] ++ tr').
    split; [|split].
    + now rewrite <- app_assoc.
    + now rewrite edhrec_requests_app, R.
    + now rewrite catalog_requests_app, K.
  - inversion Hc as [|? ? [Hst0 [Hm0 [u' [Hn0 Hu']]]] Hc']; subst.
    inversion Hp as [|? ? Hp0 Hp']; subst.
    simpl. apply String.eqb_neq in Hu. rewrite Hu, Hst0. simpl.
    destruct (hi_cards_pass svc fmt th (data r0) k cards
                (tr ++ [EvPrint (MsgFetchingScryfallPage page); EvCatalogGet u (Nat.eqb page 1)])
                Hp0) as [tr0 [E0 [R0 K0]]].
    rewrite E0. simpl. rewrite Hm0, Hn0.
    destruct (IH u' (S page) (k + length (data r0)) (cards ++ emitted svc fmt (data r0))
                (((tr ++ [EvPrint (MsgFetchingScryfallPage page);
                          EvCatalogGet u (Nat.eqb page 1)]) ++ tr0) ++ [EvSleep])
                Hu' Hc' Hp' Hst Hd Hpre Hcp Hq) as [tr' [E [R K]]].
    rewrite E.
    exists ([EvPrint (MsgFetchingScryfallPage page); EvCatalogGet u (Nat.eqb page 1)] ++
            tr0 ++ [EvSleep] ++ tr').
    split; [|split].
    + rewrite !emitted_app, <- !app_assoc. reflexivity.
    + rewrite !edhrec_requests_app, R0, R. cbn [concat map].
      rewrite !card_urls_app, <- !app_assoc. reflexivity.
    + rewrite !catalog_requests_app, K0, K. reflexivity.
Qed.

(** The high-inclusion loop over pages whose cards all pass, ended by a
    page after which [while url] stops. *)
Lemma hi_pages_complete oks lst rest : forall u page k cards tr,
  u <> "" -> Forall continues oks ->
  Forall (fun r => forallb (passes svc th) (data r) = true) (oks ++ [lst]) ->
  last_page lst ->
  exists tr',
    hi_pages svc fmt th (oks ++ lst :: rest) (Some u) page k cards tr =
      Some (cards ++ emitted svc fmt (concat (map data (oks ++ [lst]))), tr ++ tr') /\
    edhrec_requests tr' = card_urls (concat (map data (oks ++ [lst]))) /\
    catalog_requests tr' = u :: next_urls oks.
Proof.
  induction oks as [|r0 oks IH]; intros u page k cards tr Hu Hc Hp [Hst Hend].
  - inversion Hp as [|? ? Hp0 _]; subst.
    simpl. apply String.eqb_neq in Hu. rewrite Hu, Hst. simpl.
    destruct (hi_cards_pass svc fmt th (data lst) k cards
                (tr ++ [EvPrint (MsgFetchingScryfallPage page); EvCatalogGet u (Nat.eqb page 1)])
                Hp0) as [tr0 [E0 [R0 K0]]].
    rewrite E0. simpl. rewrite !app_nil_r.
    destruct (has_more lst) eqn:Hm.
    + exists ([EvPrint (MsgFetchingScryfallPage page); EvCatalogGet u (Nat.eqb page 1)] ++
              tr0 ++ [EvSleep]).
      destruct Hend as [Hf|Hn]; [congruence|]. rewrite (hi_pages_end _ _ _ _ _ _ _ _ _ Hn).
      split; [|split].
      * rewrite <- !app_assoc. reflexivity.
      * rewrite !edhrec_requests_app, R0. simpl. now rewrite ?app_nil_r.
      * now rewrite !catalog_requests_app, K0.
    + exists ([EvPrint (MsgFetchingScryfallPage page); EvCatalogGet u (Nat.eqb page 1)] ++ tr0).
      split; [|split].
      * rewrite <- !app_assoc. reflexivity.
      * now rewrite edhrec_requests_app, R0.
      * now rewrite catalog_requests_app, K0.
  - inversion Hc as [|? ? [Hst0 [Hm0 [u' [Hn0 Hu']]]] Hc']; subst.
    inversion Hp as [|? ? Hp0 Hp']; subst.
    simpl. apply String.eqb_neq in Hu. rewrite Hu, Hst0. simpl.
    destruct (hi_cards_pass svc fmt th (data r0) k cards
                (tr ++ [EvPrint (MsgFetchingScryfallPage page); EvCatalogGet u (Nat.eqb page 1)])
                Hp0) as [tr0 [E0 [R0 K0]]].
    rewrite E0. simpl. rewrite Hm0, Hn0.
    destruct (IH u' (S page) (k + length (data r0)) (cards ++ emitted svc fmt (data r0))
                (((tr ++ [EvPrint (MsgFetchingScryfallPage page);
                          EvCatalogGet u (Nat.eqb page 1)]) ++ tr0) ++ [EvSleep])
                Hu' Hc' Hp' (conj Hst Hend)) as [tr' [E [R K]]].
    rewrite E.
    exists ([EvPrint (MsgFetchingScryfallPage page); EvCatalogGet u (Nat.eqb page 1)] ++
            tr0 ++ [EvSleep] ++ tr').
    split; [|split].
    + rewrite !emitted_app, <- !app_assoc. reflexivity.
    + rewrite !edhrec_requests_app, R0, R. cbn [concat map app].
      rewrite card_urls_app. reflexivity.
    + rewrite !catalog_requests_app, K0, K. reflexivity.
Qed.

Lemma hi_cards_records cs : forall k cards tr,
  Forall (hi_record svc fmt th) cards -> Forall (hi_record svc fmt th) (ss_cards (hi_cards svc fmt th cs k cards tr)).
Proof.
  induction cs as [|c cs IH]; intros k cards tr H; [exact H|].
  rewrite hi_cards_step. cbv zeta.
  destruct (fst (get_edhrec_inclusion svc (sc_name c))) as [p|] eqn:E; [|apply IH, H].
  destruct (Qle_bool th p) eqn:Q; [|exact H].
  apply IH, Forall_app. split; [exact H|].
  constructor; [|constructor].
  exists c, p. split; [reflexivity|]. split; [exact E|]. now apply Qle_bool_iff.
Qed.

Lemma hi_pages_records resps : forall url page k cards tr cards' tr',
  Forall (hi_record svc fmt th) cards ->
  hi_pages svc fmt th resps url page k cards tr = Some (cards', tr') ->
  Forall (hi_record svc fmt th) cards'.
Proof.
  induction resps as [|r rest IH]; intros url page k cards tr cards' tr' Hc H;
    destruct url as [u|]; simpl in H;
    try (injection H as <- <-; exact Hc).
  - destruct (String.eqb u ""); [|discriminate]. now injection H as <- <-.
  - destruct (String.eqb u ""); [now injection H as <- <-|].
    destruct (negb (Z.eqb (status r) 200)); [now injection H as <- <-|].
    pose proof (hi_cards_records (data r) k cards
                  (tr ++ [EvPrint (MsgFetchingScryfallPage page); EvCatalogGet u (Nat.eqb page 1)]) Hc)
      as Hs.
    destruct (negb (ss_stopped _) && has_more r).
    + exact (IH _ _ _ _ _ _ _ Hs H).
    + injection H as <- <-. exact Hs.
Qed.

End Pages.

End PageFacts.

(* ------------------------------------------------------------------ *)
(** ** Slug, percentage and merge facts used below *)

Module SlugIdem.
Import Slug SlugSpec SlugFacts.

Lemma slug_lower c : slug_char c = true -> lower_char c = c.
Proof.
  unfold slug_char, lower_char, is_upper, is_lower, is_digit, is_hyphen. cbv zeta.
  intros H. destruct (Nat.leb 65 (nat_of_ascii c) && Nat.leb (nat_of_ascii c) 90) eqn:E;
    [|reflexivity].
  exfalso. apply andb_prop in E as [E1 E2]. apply Nat.leb_le in E1, E2.
  apply orb_prop in H as [H|H]; [apply orb_prop in H as [H|H]|].
  - apply andb_prop in H as [H1 _]. apply Nat.leb_le in H1. lia.
  - apply andb_prop in H as [_ H2]. apply Nat.leb_le in H2. lia.
  - apply Ascii.eqb_eq in H. subst c. change (nat_of_ascii "-") with 45 in E1. lia.
Qed.

Lemma slug_not_space c : slug_char c = true -> is_space c = false.
Proof.
  unfold slug_char, is_space, is_lower, is_digit, is_hyphen. cbv zeta. intros H.
  apply not_true_iff_false. intros E.
  apply orb_prop in E as [E|E]; apply andb_prop in E as [E1 E2];
    apply Nat.leb_le in E1, E2;
    (apply orb_prop in H as [H|H]; [apply orb_prop in H as [H|H]|]);
    try (apply Ascii.eqb_eq in H; subst c; change (nat_of_ascii "-") with 45 in E1, E2; lia);
    apply andb_prop in H as [H1 H2]; apply Nat.leb_le in H1, H2; lia.
Qed.

Lemma slug_kept c : slug_char c = true -> kept c = true.
Proof.
  unfold slug_char, kept.
  destruct (is_lower c), (is_digit c), (is_space c), (is_hyphen c); simpl; congruence.
Qed.

Lemma map_lower_id l : Forall (fun c => slug_char c = true) l -> map lower_char l = l.
Proof. induction 1; simpl; [reflexivity|]. now rewrite slug_lower, IHForall. Qed.

Lemma filter_kept_id l : Forall (fun c => slug_char c = true) l -> filter kept l = l.
Proof. induction 1; simpl; [reflexivity|]. now rewrite slug_kept, IHForall. Qed.

Lemma collapse_runs_id p b l : Forall (fun c => p c = false) l -> collapse_runs p b l = l.
Proof.
  intros H. revert b. induction H as [|c l Hc H IH]; intros b; simpl; [reflexivity|].
  now rewrite Hc, IH.
Qed.

Lemma collapse_hyphen_id l : forall b,
  no_double_hyphen l = true -> (b = true -> head_ok l = true) ->
  collapse_runs is_hyphen b l = l.
Proof.
  induction l as [|c l IH]; intros b Hnd Hh; [reflexivity|].
  cbn [collapse_runs]. pose proof (no_double_cons_inv _ _ Hnd) as Hl.
  destruct (is_hyphen c) eqn:Ec.
  - destruct b.
    + specialize (Hh eq_refl). simpl in Hh. now rewrite Ec in Hh.
    + assert (Hhl : head_ok l = true).
      { destruct l as [|x t]; [reflexivity|]. simpl in Hnd |- *.
        rewrite Ec in Hnd. now destruct (is_hyphen x). }
      unfold is_hyphen in Ec. apply Ascii.eqb_eq in Ec. subst c.
      now rewrite IH.
  - now rewrite IH.
Qed.

Lemma lstrip_id l : head_ok l = true -> lstrip_hyphen l = l.
Proof.
  destruct l as [|c l]; [reflexivity|]. unfold head_ok. cbn [lstrip_hyphen].
  destruct (is_hyphen c); [discriminate|reflexivity].
Qed.

Lemma rstrip_id l : last_ok l = true -> rstrip_hyphen l = l.
Proof.
  induction l as [|c l IH]; intros H; [reflexivity|].
  destruct l as [|x t].
  - unfold last_ok in H. simpl in H |- *. destruct (is_hyphen c); [discriminate|reflexivity].
  - rewrite last_ok_cons in H by discriminate.
    change (rstrip_hyphen (c :: x :: t)) with
      (match rstrip_hyphen (x :: t) with
       | [] => if is_hyphen c then [] else [c]
       | t' => c :: t' end).
    now rewrite (IH H).
Qed.

(** A list already in slug shape is left unchanged. *)
Lemma sanitize_chars_fix s :
  Forall (fun c => slug_char c = true) s ->
  no_double_hyphen s = true -> head_ok s = true -> last_ok s = true ->
  sanitize_chars s = s.
Proof.
  intros Hs Hnd Hh Hl.
  unfold sanitize_chars, strip_hyphen. cbv zeta.
  rewrite map_lower_id, filter_kept_id by exact Hs.
  rewrite (collapse_runs_id is_space)
    by (eapply Forall_impl; [|exact Hs]; intros c; apply slug_not_space).
  rewrite collapse_hyphen_id by (assumption || discriminate).
  now rewrite lstrip_id, rstrip_id.
Qed.

End SlugIdem.

Module PercentValue.
Import Slug Percent PercentFacts.

Lemma digits_fold_nonneg l : forall acc, (0 <= acc)%Z ->
  (0 <= fold_left (fun acc c => acc * 10 + Z.of_nat (nat_of_ascii c - 48))%Z l acc)%Z.
Proof. induction l as [|c l IH]; intros acc H; simpl; [exact H|]. apply IH. lia. Qed.

Lemma decimal_value_nonneg g : Qle 0 (decimal_value g).
Proof.
  unfold decimal_value, Qle. cbn [Qnum Qden].
  pose proof (digits_fold_nonneg
    (fst (span_digits g) ++ match snd (span_digits g) with _ :: t => t | [] => [] end) 0%Z
    (Z.le_refl 0)).
  unfold digits_value. lia.
Qed.

Lemma span_digits_stop d x r :
  Forall (fun c => is_digit c = true) d -> is_digit x = false ->
  span_digits (d ++ x :: r) = (d, x :: r).
Proof.
  intros Hd Hx. induction Hd as [|c d Hc Hd IH]; simpl.
  - now rewrite Hx.
  - now rewrite Hc, IH.
Qed.

Lemma span_digits_all d :
  Forall (fun c => is_digit c = true) d -> span_digits d = (d, []).
Proof. induction 1 as [|c d Hc Hd IH]; simpl; [reflexivity|]. now rewrite Hc, IH. Qed.

End PercentValue.

Module MergeNames.
Import Merge MergeSpec MergeFacts.

Lemma merge_names_In A B n :
  In n (map m_name (merge_card_lists A B)) <-> In n (map c_name (A ++ B)).
Proof.
  rewrite in_names_get, merge_lookup. split.
  - intros H. destruct (named n (A ++ B)) as [|c l] eqn:E.
    + exfalso. apply H, expected_None, E.
    + assert (Hc : In c (named n (A ++ B))) by (rewrite E; now left).
      apply named_In in Hc as [Hc <-]. now apply in_map.
  - intros H He. apply expected_None in He.
    apply in_map_iff in H as [c [<- Hc]].
    assert (Hn : In c (named (c_name c) (A ++ B))) by (now apply named_In).
    rewrite He in Hn. contradiction.
Qed.

Lemma last_given_In {X} (l : list (option X)) v :
  last_given l = Some v -> In (Some v) l.
Proof.
  unfold last_given.
  enough (H : forall acc, fold_left (fun acc o => match o with Some v => Some v | None => acc end)
                                    l acc = Some v -> acc = Some v \/ In (Some v) l)
    by (intros E; destruct (H None E); [discriminate | assumption]).
  induction l as [|o l IH]; intros acc E; simpl in E |- *; [now left|].
  destruct (IH _ E) as [Ho|Ho]; [|auto].
  destruct o; [subst; auto | auto].
Qed.

End MergeNames.

Module MoreFacts.
Import Slug SlugSpec SlugFacts SlugIdem Percent PercentFacts PercentValue.
Import Fetch FetchSpec FetchFacts ScanFacts PageFacts.

Lemma sanitize_chars_idem l : sanitize_chars (sanitize_chars l) = sanitize_chars l.
Proof.
  pose proof (sanitize_chars_shape l) as [Hnd [Hh Hl]].
  apply sanitize_chars_fix; [apply sanitize_chars_slug_char | assumption..].
Qed.

(** [re.search] takes a match at the head of the text. *)
Lemma re_search_head l g : match_at l = Some g -> re_search_percent l = Some g.
Proof.
  destruct l as [|c l]; [discriminate|]. intros H.
  change (re_search_percent (c :: l)) with
    (match match_at (c :: l) with
     | Some g => Some g
     | None => re_search_percent l end).
  now rewrite H.
Qed.

Lemma match_at_decimal d1 d2 rest :
  d1 <> [] -> Forall (fun c => is_digit c = true) d1 -> Forall (fun c => is_digit c = true) d2 ->
  match_at (d1 ++ "."%char :: d2 ++ "%"%char :: rest) = Some (d1 ++ "."%char :: d2).
Proof.
  intros Hne H1 H2. unfold match_at.
  rewrite span_digits_stop by (assumption || reflexivity).
  destruct d1 as [|c d1]; [congruence|]. simpl.
  rewrite span_digits_stop by (assumption || reflexivity). reflexivity.
Qed.

Lemma match_at_integer d1 rest :
  d1 <> [] -> Forall (fun c => is_digit c = true) d1 ->
  match_at (d1 ++ "%"%char :: rest) = Some d1.
Proof.
  intros Hne H1. unfold match_at.
  rewrite span_digits_stop by (assumption || reflexivity).
  destruct d1 as [|c d1]; [congruence|]. reflexivity.
Qed.

Section HiError.
Variable svc : string -> EdhrecResponse.
Variable fmt : Q -> string.
Variable th : Q.

(** The high-inclusion loop over pages whose cards all pass, then a
    failing catalog reply. *)
Lemma hi_pages_error oks err rest : forall u page k cards tr,
  u <> "" -> Forall continues oks ->
  Forall (fun r => forallb (passes svc th) (data r) = true) oks ->
  status err <> 200%Z ->
  exists tr',
    hi_pages svc fmt th (oks ++ err :: rest) (Some u) page k cards tr =
      Some (cards ++ emitted svc fmt (concat (map data oks)),
            tr ++ tr' ++ [EvPrint (MsgError (status err) (text err))]) /\
    edhrec_requests tr' = card_urls (concat (map data oks)) /\
    catalog_requests tr' = u :: next_urls oks.
Proof.
  induction oks as [|r0 oks IH]; intros u page k cards tr Hu Hc Hp Herr.
  - simpl. apply String.eqb_neq in Hu. rewrite Hu.
    apply Z.eqb_neq in Herr. rewrite Herr. simpl.
    exists [EvPrint (MsgFetchingScryfallPage page); EvCatalogGet u (Nat.eqb page 1)].
    split; [|split; reflexivity].
    rewrite app_nil_r, <- app_assoc. reflexivity.
  - inversion Hc as [|? ? [Hst0 [Hm0 [u' [Hn0 Hu']]]] Hc']; subst.
    inversion Hp as [|? ? Hp0 Hp']; subst.
    simpl. apply String.eqb_neq in Hu. rewrite Hu, Hst0. simpl.
    destruct (hi_cards_pass svc fmt th (data r0) k cards
                (tr ++ [EvPrint (MsgFetchingScryfallPage page); EvCatalogGet u (Nat.eqb page 1)])
                Hp0) as [tr0 [E0 [R0 K0]]].
    rewrite E0. simpl. rewrite Hm0, Hn0.
    destruct (IH u' (S page) (k + length (data r0)) (cards ++ emitted svc fmt (data r0))
                (((tr ++ [EvPrint (MsgFetchingScryfallPage page);
                          EvCatalogGet u (Nat.eqb page 1)]) ++ tr0) ++ [EvSleep])
                Hu' Hc' Hp' Herr) as [tr' [E [R K]]].
    rewrite E.
    exists ([EvPrint (MsgFetchingScryfallPage page); EvCatalogGet u (Nat.eqb page 1)] ++
            tr0 ++ [EvSleep] ++ tr').
    split; [|split].
    + rewrite !emitted_app, <- !app_assoc. reflexivity.
    + rewrite !edhrec_requests_app, R0, R. cbn [concat map app].
      rewrite card_urls_app. reflexivity.
    + rewrite !catalog_requests_app, K0, K. reflexivity.
Qed.

End HiError.

End MoreFacts.

(* ------------------------------------------------------------------ *)
(** ** Further properties of the fetchers, the helpers and [main] *)

Module Extras.
Import Merge MergeSpec MergeFacts MergeNames.
Import Slug SlugSpec SlugFacts SlugIdem Percent PercentFacts PercentValue.
Import Fetch FetchSpec FetchFacts ScanFacts PageFacts MoreFacts Samples.

Ltac page_continues :=
  split; [reflexivity | split; [reflexivity | eexists; split; [reflexivity | discriminate]]].

(** Commander-only fetch, complete run.  When every page but the last is
    successful and announces a non-empty next URL, and the last page is
    successful and ends the loop (no more pages, or [has_more] with a
    missing or empty [next_page]), the fetch returns the records of all
    these pages in order, one per catalog card, and requests the search
    URL and then exactly the announced next URLs. *)
Theorem commander_only_complete_run (oks : list Response) (lst : Response)
    (rest : list Response) :
  Forall continues oks -> last_page lst ->
  exists tr,
    fetch_commander_only_cards (oks ++ lst :: rest) =
      Some (concat (map (fun r => map to_commander_only (data r)) (oks ++ [lst])), tr) /\
    catalog_requests tr = SEARCH_URL :: next_urls oks.
Proof.
  intros Hoks Hl. unfold fetch_commander_only_cards.
  destruct (co_pages_complete oks lst rest SEARCH_URL 1 [] [EvPrint MsgFetchingCommanderOnly]
              (proj1 (String.eqb_neq _ _) search_url_nonempty) Hoks Hl) as [tr' [E K]].
  rewrite E. eexists. split; [reflexivity|].
  rewrite !catalog_requests_app, K. simpl. now rewrite app_nil_r.
Qed.

Lemma commander_only_complete_run_witness :
  Forall continues [page1] /\ last_page page2_open /\
  exists tr,
    fetch_commander_only_cards ([page1] ++ page2_open :: []) =
      Some (concat (map (fun r => map to_commander_only (data r)) ([page1] ++ [page2_open])), tr) /\
    catalog_requests tr = SEARCH_URL :: next_urls [page1].
Proof.
  assert (H1 : Forall continues [page1]) by (constructor; [page_continues | constructor]).
  assert (H2 : last_page page2_open) by (split; [reflexivity | right; left; reflexivity]).
  split; [exact H1 | split; [exact H2 |]].
  exact (commander_only_complete_run [page1] page2_open [] H1 H2).
Defined.

(** Commander-only fetch, records.  Whatever the catalog replies, every
    record the fetch returns has reason "commander_only" and carries
    neither an edhrec_rank nor an inclusion_percent. *)
Theorem commander_only_records (resps : list Response) (cards : list CardRecord)
    (tr : list Event) :
  fetch_commander_only_cards resps = Some (cards, tr) ->
  Forall (fun c => c_reason c = "commander_only" /\ c_rank c = None /\ c_incl c = None) cards.
Proof.
  unfold fetch_commander_only_cards.
  destruct (co_pages resps (Some SEARCH_URL) 1 [] [EvPrint MsgFetchingCommanderOnly])
    as [[cs t]|] eqn:E; [|discriminate].
  intros H. injection H as <- _.
  destruct (co_pages_extends _ _ _ _ _ _ _ E) as [scs ->].
  apply Forall_forall. intros c Hc. apply in_map_iff in Hc as [x [<- _]].
  repeat split.
Qed.

Lemma commander_only_records_witness :
  exists cards tr,
    fetch_commander_only_cards [page1; page2] = Some (cards, tr) /\
    Forall (fun c => c_reason c = "commander_only" /\ c_rank c = None /\ c_incl c = None) cards.
Proof.
  eexists. eexists. split; [reflexivity|].
  apply (commander_only_records [page1; page2] _ _ eq_refl).
Defined.

(** Statistics lookup.  One lookup issues exactly one statistics request
    (for the card's URL) and no catalog request; it yields a value only
    from a status-200 reply whose label contains a percent sign; and a
    request that raises yields no value and prints a warning. *)
Theorem edhrec_lookup_contract (svc : string -> EdhrecResponse) (n : string) :
  edhrec_requests (snd (get_edhrec_inclusion svc n)) = [edhrec_url n] /\
  catalog_requests (snd (get_edhrec_inclusion svc n)) = [] /\
  (forall p, fst (get_edhrec_inclusion svc n) = Some p ->
     exists label, svc (edhrec_url n) = EdhResponse 200 label /\
                   In "%"%char (list_ascii_of_string label)) /\
  (forall e, svc (edhrec_url n) = EdhRaise e ->
     fst (get_edhrec_inclusion svc n) = None /\
     In (EvPrint (MsgWarning n e)) (snd (get_edhrec_inclusion svc n))).
Proof.
  destruct (get_edhrec_inclusion_requests svc n) as [R K].
  split; [exact R|]. split; [exact K|]. split.
  - intros p. unfold get_edhrec_inclusion.
    destruct (svc (edhrec_url n)) as [e|st label]; simpl; [discriminate|].
    destruct (Z.eqb_spec st 200) as [->|_]; simpl; [|discriminate].
    intros H. exists label. split; [reflexivity|].
    unfold percent_of_label in H.
    destruct (re_search_percent (list_ascii_of_string label)) eqn:E; [|discriminate].
    eapply re_search_percent_In, E.
  - intros e He. unfold get_edhrec_inclusion. rewrite He. simpl.
    split; [reflexivity | right; left; reflexivity].
Qed.

(** High-inclusion fetch, records.  Whatever the replies, every record
    the fetch returns is built by [to_high_inclusion] from a catalog card
    whose looked-up percentage is at least the threshold. *)
Theorem high_inclusion_records (svc : string -> EdhrecResponse) (fmt : Q -> string)
    (th : Q) (resps : list Response) (cards : list CardRecord) (tr : list Event) :
  fetch_high_inclusion_cards svc fmt th resps = Some (cards, tr) ->
  Forall (hi_record svc fmt th) cards.
Proof.
  unfold fetch_high_inclusion_cards.
  destruct (hi_pages svc fmt th resps (Some SEARCH_URL) 1 0 []
              [EvPrint (MsgFetchingHighInclusion th); EvPrint MsgUsingEdhrecData])
    as [[cs t]|] eqn:E; [|discriminate].
  intros H. injection H as <- _.
  eapply hi_pages_records; [constructor | exact E].
Qed.

Lemma high_inclusion_records_witness :
  exists cards tr,
    fetch_high_inclusion_cards sample_svc sample_fmt (35 # 10) [page1; page2] = Some (cards, tr) /\
    Forall (hi_record sample_svc sample_fmt (35 # 10)) cards.
Proof.
  eexists. eexists. split; [reflexivity|].
  apply (high_inclusion_records sample_svc sample_fmt (35 # 10) [page1; page2] _ _ eq_refl).
Defined.

(** High-inclusion fetch, early stop across pages.  When the cards of
    the successful pages [oks] (each announcing a next page) and the
    prefix [pre] of the next successful page all pass, and the card [c]
    that follows has a percentage below the threshold, the fetch returns
    the records of the passing cards with a percentage, in order; it
    looks up exactly these cards and [c], never the cards after [c], and
    requests no catalog page after the one holding [c]. *)
Theorem high_inclusion_early_stop (svc : string -> EdhrecResponse) (fmt : Q -> string)
    (th : Q) (oks : list Response) (r : Response) (rest : list Response)
    (pre : list ScryCard) (c : ScryCard) (post : list ScryCard) (p : Q) :
  Forall continues oks ->
  Forall (fun r => forallb (passes svc th) (data r) = true) oks ->
  status r = 200%Z -> data r = pre ++ c :: post ->
  forallb (passes svc th) pre = true ->
  fst (get_edhrec_inclusion svc (sc_name c)) = Some p -> Qlt p th ->
  exists tr,
    fetch_high_inclusion_cards svc fmt th (oks ++ r :: rest) =
      Some (emitted svc fmt (concat (map data oks) ++ pre), tr) /\
    edhrec_requests tr = card_urls (concat (map data oks) ++ pre ++ [c]) /\
    catalog_requests tr = SEARCH_URL :: next_urls oks.
Proof.
  intros Hc Hp Hst Hd Hpre Hcp Hlt. unfold fetch_high_inclusion_cards.
  assert (Hq : Qle_bool th p = false).
  { apply not_true_iff_false. rewrite Qle_bool_iff. now apply Qlt_not_le. }
  destruct (hi_pages_stop svc fmt th oks r rest pre c post p SEARCH_URL 1 0 []
              [EvPrint (MsgFetchingHighInclusion th); EvPrint MsgUsingEdhrecData]
              (proj1 (String.eqb_neq _ _) search_url_nonempty) Hc Hp Hst Hd Hpre Hcp Hq)
    as [tr' [E [R K]]].
  rewrite E. eexists. split; [reflexivity|]. split.
  - rewrite !edhrec_requests_app, R. simpl. now rewrite app_nil_r.
  - rewrite !catalog_requests_app, K. simpl. now rewrite app_nil_r.
Qed.

Lemma high_inclusion_early_stop_witness :
  exists tr,
    fetch_high_inclusion_cards sample_svc sample_fmt (35 # 10) ([page1] ++ page2 :: []) =
      Some (emitted sample_svc sample_fmt (concat (map data [page1]) ++ [card_a]), tr) /\
    edhrec_requests tr = card_urls (concat (map data [page1]) ++ [card_a] ++ [card_c]) /\
    catalog_requests tr = SEARCH_URL :: next_urls [page1].
Proof.
  apply (high_inclusion_early_stop sample_svc sample_fmt (35 # 10) [page1] page2 []
           [card_a] card_c [card_b] (125 # 100)).
  - constructor; [page_continues | constructor].
  - constructor; [vm_compute; reflexivity | constructor].
  - reflexivity.
  - reflexivity.
  - vm_compute. reflexivity.
  - vm_compute. reflexivity.
  - reflexivity.
Defined.

(** High-inclusion fetch, complete run.  When every card of every page
    passes, every page but the last announces a non-empty next URL and
    the last page ends the loop, the fetch returns the records of all
    cards with a percentage, in order, looks up every card once, and
    requests the search URL and then exactly the announced next URLs. *)
Theorem high_inclusion_complete_run (svc : string -> EdhrecResponse) (fmt : Q -> string)
    (th : Q) (oks : list Response) (lst : Response) (rest : list Response) :
  Forall continues oks ->
  Forall (fun r => forallb (passes svc th) (data r) = true) (oks ++ [lst]) ->
  last_page lst ->
  exists tr,
    fetch_high_inclusion_cards svc fmt th (oks ++ lst :: rest) =
      Some (emitted svc fmt (concat (map data (oks ++ [lst]))), tr) /\
    edhrec_requests tr = card_urls (concat (map data (oks ++ [lst]))) /\
    catalog_requests tr = SEARCH_URL :: next_urls oks.
Proof.
  intros Hc Hp Hl. unfold fetch_high_inclusion_cards.
  destruct (hi_pages_complete svc fmt th oks lst rest SEARCH_URL 1 0 []
              [EvPrint (MsgFetchingHighInclusion th); EvPrint MsgUsingEdhrecData]
              (proj1 (String.eqb_neq _ _) search_url_nonempty) Hc Hp Hl)
    as [tr' [E [R K]]].
  rewrite E. eexists. split; [reflexivity|]. split.
  - rewrite !edhrec_requests_app, R. simpl. now rewrite app_nil_r.
  - rewrite !catalog_requests_app, K. simpl. now rewrite app_nil_r.
Qed.

Lemma high_inclusion_complete_run_witness :
  exists tr,
    fetch_high_inclusion_cards sample_svc sample_fmt (35 # 10) ([page1] ++ page2_open :: []) =
      Some (emitted sample_svc sample_fmt (concat (map data ([page1] ++ [page2_open]))), tr) /\
    edhrec_requests tr = card_urls (concat (map data ([page1] ++ [page2_open]))) /\
    catalog_requests tr = SEARCH_URL :: next_urls [page1].
Proof.
  apply (high_inclusion_complete_run sample_svc sample_fmt (35 # 10) [page1] page2_open []).
  - constructor; [page_continues | constructor].
  - constructor; [vm_compute; reflexivity | constructor; [vm_compute; reflexivity | constructor]].
  - split; [reflexivity | right; left; reflexivity].
Defined.

(** High-inclusion fetch, catalog error.  After successful pages whose
    cards all pass, a reply with a status other than 200 ends the fetch
    with the records gathered so far; the error is printed and no other
    catalog page is requested. *)
Theorem high_inclusion_catalog_error (svc : string -> EdhrecResponse) (fmt : Q -> string)
    (th : Q) (oks : list Response) (err : Response) (rest : list Response) :
  Forall continues oks ->
  Forall (fun r => forallb (passes svc th) (data r) = true) oks ->
  status err <> 200%Z ->
  exists tr,
    fetch_high_inclusion_cards svc fmt th (oks ++ err :: rest) =
      Some (emitted svc fmt (concat (map data oks)),
            tr ++ [EvPrint (MsgError (status err) (text err));
                   EvPrint (MsgFoundHighInclusion
                              (length (emitted svc fmt (concat (map data oks)))))]) /\
    edhrec_requests tr = card_urls (concat (map data oks)) /\
    catalog_requests tr = SEARCH_URL :: next_urls oks.
Proof.
  intros Hc Hp Herr. unfold fetch_high_inclusion_cards.
  destruct (hi_pages_error svc fmt th oks err rest SEARCH_URL 1 0 []
              [EvPrint (MsgFetchingHighInclusion th); EvPrint MsgUsingEdhrecData]
              (proj1 (String.eqb_neq _ _) search_url_nonempty) Hc Hp Herr)
    as [tr' [E [R K]]].
  rewrite E.
  exists ([EvPrint (MsgFetchingHighInclusion th); EvPrint MsgUsingEdhrecData] ++ tr').
  split; [|split].
  - now rewrite <- !app_assoc.
  - now rewrite edhrec_requests_app, R.
  - now rewrite catalog_requests_app, K.
Qed.

Lemma high_inclusion_catalog_error_witness :
  exists tr,
    fetch_high_inclusion_cards sample_svc sample_fmt (35 # 10) ([page1] ++ page_error :: []) =
      Some (emitted sample_svc sample_fmt (concat (map data [page1])),
            tr ++ [EvPrint (MsgError (status page_error) (text page_error));
                   EvPrint (MsgFoundHighInclusion
                              (length (emitted sample_svc sample_fmt (concat (map data [page1])))))]) /\
    edhrec_requests tr = card_urls (concat (map data [page1])) /\
    catalog_requests tr = SEARCH_URL :: next_urls [page1].
Proof.
  apply (high_inclusion_catalog_error sample_svc sample_fmt (35 # 10) [page1] page_error []).
  - constructor; [page_continues | constructor].
  - constructor; [vm_compute; reflexivity | constructor].
  - discriminate.
Defined.

(** Slugs, fixed points.  A name that is already a slug (lowercase
    letters, digits and hyphens, no two adjacent hyphens, no hyphen at
    either end) is its own sanitized form; hence sanitizing twice gives
    the same slug as sanitizing once. *)
Theorem sanitize_card_name_fixed_points :
  (forall name,
     let l := list_ascii_of_string name in
     Forall (fun c => slug_char c = true) l -> no_double_hyphen l = true ->
     head_ok l = true -> last_ok l = true ->
     sanitize_card_name name = name) /\
  (forall name, sanitize_card_name (sanitize_card_name name) = sanitize_card_name name).
Proof.
  split.
  - intros name. cbv zeta. intros Hs Hnd Hh Hl. unfold sanitize_card_name.
    rewrite (sanitize_chars_fix _ Hs Hnd Hh Hl).
    apply string_of_list_ascii_of_string.
  - intros name. unfold sanitize_card_name.
    now rewrite list_ascii_of_string_of_list_ascii, sanitize_chars_idem.
Qed.

(** Percentages, sign.  A percentage parsed from a label is never
    negative (the pattern has no sign). *)
Theorem percent_of_label_nonneg (label : string) (p : Q) :
  percent_of_label label = Some p -> Qle 0 p.
Proof.
  unfold percent_of_label.
  destruct (re_search_percent (list_ascii_of_string label)) as [g|]; [|discriminate].
  intros H. injection H as <-. apply decimal_value_nonneg.
Qed.

Lemma percent_of_label_nonneg_witness :
  percent_of_label "In 5 decks 1.25% of 400 decks" = Some (125 # 100) /\ Qle 0 (125 # 100).
Proof.
  split; [reflexivity|].
  exact (percent_of_label_nonneg "In 5 decks 1.25% of 400 decks" (125 # 100) eq_refl).
Defined.

(** Percentages, leading number.  A label that starts with digits
    [d1], optionally a dot and digits [d2], then a percent sign, yields
    exactly the decimal number [d1.d2] (or the integer [d1]), whatever
    follows. *)
Theorem percent_of_label_leading_number (d1 d2 rest : list ascii) :
  d1 <> [] -> Forall (fun c => is_digit c = true) d1 ->
  Forall (fun c => is_digit c = true) d2 ->
  percent_of_label (string_of_list_ascii (d1 ++ "."%char :: d2 ++ "%"%char :: rest)) =
    Some (Qmake (digits_value (d1 ++ d2)) (Z.to_pos (10 ^ Z.of_nat (length d2)))) /\
  percent_of_label (string_of_list_ascii (d1 ++ "%"%char :: rest)) =
    Some (Qmake (digits_value d1) 1).
Proof.
  intros Hne H1 H2. unfold percent_of_label.
  rewrite !list_ascii_of_string_of_list_ascii.
  rewrite (re_search_head _ _ (match_at_decimal d1 d2 rest Hne H1 H2)).
  rewrite (re_search_head _ _ (match_at_integer d1 rest Hne H1)).
  simpl option_map. unfold decimal_value.
  rewrite span_digits_stop by (assumption || reflexivity).
  rewrite span_digits_all by assumption.
  simpl. now rewrite app_nil_r.
Qed.

Lemma percent_of_label_leading_number_witness :
  ["1"; "2"]%char <> [] /\
  Forall (fun c => is_digit c = true) ["1"; "2"]%char /\
  Forall (fun c => is_digit c = true) ["5"]%char /\
  percent_of_label (string_of_list_ascii (["1"; "2"]%char ++ "."%char :: ["5"]%char ++
                                          "%"%char :: list_ascii_of_string " of decks")) =
    Some (Qmake (digits_value (["1"; "2"]%char ++ ["5"]%char))
                (Z.to_pos (10 ^ Z.of_nat (length ["5"]%char)))) /\
  percent_of_label (string_of_list_ascii (["1"; "2"]%char ++ "%"%char ::
                                          list_ascii_of_string " of decks")) =
    Some (Qmake (digits_value ["1"; "2"]%char) 1).
Proof.
  assert (Hne : ["1"; "2"]%char <> []) by discriminate.
  assert (H1 : Forall (fun c => is_digit c = true) ["1"; "2"]%char)
    by (repeat constructor).
  assert (H2 : Forall (fun c => is_digit c = true) ["5"]%char) by (repeat constructor).
  split; [exact Hne | split; [exact H1 | split; [exact H2 |]]].
  exact (percent_of_label_leading_number _ _ (list_ascii_of_string " of decks") Hne H1 H2).
Defined.

(** Merge, one entry per distinct name.  The names of the merged list are
    the distinct names of the two inputs, each once; so the merged list
    is never longer than the two inputs together (the overlap [main]
    prints is never negative). *)
Theorem merge_distinct_names (A B : list CardRecord) :
  Permutation (map m_name (merge_card_lists A B))
              (nodup String.string_dec (map c_name (A ++ B))) /\
  length (merge_card_lists A B) <= length A + length B.
Proof.
  assert (P : Permutation (map m_name (merge_card_lists A B))
                          (nodup String.string_dec (map c_name (A ++ B)))).
  { apply NoDup_Permutation; [apply merge_names_nodup | apply NoDup_nodup |].
    intros n. rewrite merge_names_In, nodup_In. reflexivity. }
  split; [exact P|].
  rewrite <- (length_map m_name), (Permutation_length P).
  transitivity (length (map c_name (A ++ B))).
  - apply NoDup_incl_length; [apply NoDup_nodup|]. intros x. apply nodup_In.
  - now rewrite length_map, length_app.
Qed.

(** [main], output records.  Whenever [main] gets both lists, every merged
    record it writes has only the reasons "commander_only" or
    "high_inclusion: <p>%" with [p] at least 3.5, and an
    inclusion_percent, when present, of at least 3.5. *)
Theorem main_output_records (svc : string -> EdhrecResponse) (fmt : Q -> string)
    (co hi : list Response) (out : list Merged) :
  Main.main_output svc fmt co hi = Some out ->
  Forall (fun m =>
    (forall r, In r (m_reasons m) ->
       r = "commander_only" \/
       exists p, r = String.append "high_inclusion: " (String.append (fmt p) "%") /\
                 Qle (35 # 10) p) /\
    (forall p, m_incl m = Some p -> Qle (35 # 10) p)) out.
Proof.
  unfold Main.main_output.
  destruct (fetch_commander_only_cards co) as [[A trA]|] eqn:E1; [|discriminate].
  destruct (fetch_high_inclusion_cards svc fmt (35 # 10) hi) as [[B trB]|] eqn:E2;
    [|discriminate].
  intros H. injection H as <-.
  assert (HA : forall c, In c A -> c_reason c = "commander_only").
  { unfold fetch_commander_only_cards in E1.
    destruct (co_pages co (Some SEARCH_URL) 1 [] [EvPrint MsgFetchingCommanderOnly])
      as [[cs t]|] eqn:E; [|discriminate].
    injection E1 as <- _. destruct (co_pages_extends _ _ _ _ _ _ _ E) as [scs ->].
    intros c Hc. apply in_map_iff in Hc as [x [<- _]]. reflexivity. }
  assert (HB : Forall (hi_record svc fmt (35 # 10)) B).
  { unfold fetch_high_inclusion_cards in E2.
    destruct (hi_pages svc fmt (35 # 10) hi (Some SEARCH_URL) 1 0 []
                [EvPrint (MsgFetchingHighInclusion (35 # 10)); EvPrint MsgUsingEdhrecData])
      as [[cs t]|] eqn:E; [|discriminate].
    injection E2 as <- _. eapply hi_pages_records; [constructor | exact E]. }
  rewrite Forall_forall in HB.
  apply Forall_forall. intros m Hm.
  pose proof (dict_get_In m _ (merge_names_nodup A B) Hm) as Hg.
  rewrite merge_lookup in Hg. split.
  - intros r Hr.
    pose proof (proj1 (expected_reasons (m_name m) A B r)) as HR.
    rewrite Hg in HR. destruct (HR Hr) as [c [Hc [_ <-]]].
    apply in_app_iff in Hc as [Hc|Hc]; [left; now apply HA|].
    right. destruct (HB c Hc) as [c' [p [-> [_ Hq]]]]. now exists p.
  - intros p Hp. unfold expected in Hg.
    destruct (named (m_name m) (A ++ B)) as [|c0 l]; [discriminate|].
    injection Hg as Hg. rewrite <- Hg in Hp. simpl in Hp.
    apply last_given_In, in_map_iff in Hp as [c [Hci Hc]].
    apply named_In in Hc as [Hc _].
    destruct (HB c Hc) as [c' [p' [-> [_ Hq]]]].
    simpl in Hci. injection Hci as <-. exact Hq.
Qed.

Lemma main_output_records_witness :
  exists out,
    Main.main_output sample_svc sample_fmt [page1; page2] [page1; page2] = Some out /\
    Forall (fun m =>
      (forall r, In r (m_reasons m) ->
         r = "commander_only" \/
         exists p, r = String.append "high_inclusion: " (String.append (sample_fmt p) "%") /\
                   Qle (35 # 10) p) /\
      (forall p, m_incl m = Some p -> Qle (35 # 10) p)) out.
Proof.
  eexists. split; [reflexivity|].
  exact (main_output_records sample_svc sample_fmt [page1; page2] [page1; page2] _ eq_refl).
Defined.

End Extras.
